(** * Borealis demos: gate-argument padding, loss tiling and circuit layout

    A shallow embedding of the executable cells of the three notebooks
    (quickstart, beginner and advanced Borealis tutorials).  The notebooks
    build seven per-time-bin gate-argument lists, pad them for loop fill
    and loop drain, tile the detector-channel efficiencies, lay out the
    time-domain circuit and crop the vacuum modes from the results.

    Part I holds the definitions, Part II the proofs, Part III further
    properties of the notebooks' code. *)

From Stdlib Require Import ZArith QArith Qabs Lia Lqa.
From stdpp Require Import base list.

Set Default Proof Using "Type".

(** ** Part I: definitions *)

(** *** Python list idioms used by the notebooks *)

Module Py.
Section Idioms.
Context {A : Type}.

(** [[z] * d] *)
Definition times (z : A) (d : nat) : list A := replicate d z.

(** [l[:d] = [z] * d] on a Python list: the slice [l[:d]] (which is the
    whole list when [d] exceeds its length) is replaced by [d] copies
    of [z]. *)
Definition assign_prefix (l : list A) (d : nat) (z : A) : list A :=
  times z d ++ drop d l.

(** [np.tile(l, reps)] on a one-dimensional array *)
Definition tile (l : list A) (reps : nat) : list A :=
  mjoin (replicate reps l).
End Idioms.
End Py.

(** *** Advanced tutorial: padding the gate arguments

    Gate arguments are kept abstract: the padding never computes with
    them, it only moves them and inserts the idle value.  [zero] stands
    for both Python's [0] and [0.0], the full-transmission angle
    [alpha = 0] of a beamsplitter. *)

Module GateArgs.
Section Padding.
Context {A : Type} (zero : A).

(** [alpha[:delay] = [0.0] * delay]: open the loop until it is filled. *)
Definition fill_loop (delay : nat) (alpha : list A) : list A :=
  Py.assign_prefix alpha delay zero.

(** [seq = [0] * d + seq]: idle bins awaiting the first mode. *)
Definition await (d : nat) (s : list A) : list A :=
  Py.times zero d ++ s.

(** [seq += [0] * d]: idle bins while the loops are emptied. *)
Definition drain (d : nat) (s : list A) : list A :=
  s ++ Py.times zero d.

(** The arguments the user draws for one loop, each of length [modes]. *)
Record loop_args := LoopArgs { Rgate : list A; BSgate : list A }.

(** The cells "rotation-gate parameters" to [gate_args_list] of the
    advanced tutorial, with [modes], the squeezing value [r0], the three
    delays and the randomly drawn lists as inputs. *)
Definition gate_args_list (modes : nat) (r0 : A)
    (delay_0 delay_1 delay_2 : nat)
    (phi_0 phi_1 phi_2 alpha_0 alpha_1 alpha_2 : list A) : list (list A) :=
  let r := Py.times r0 modes in
  (* set the first beamsplitter arguments to T=1 to fill the loops *)
  let alpha_0 := fill_loop delay_0 alpha_0 in
  let alpha_1 := fill_loop delay_1 alpha_1 in
  let alpha_2 := fill_loop delay_2 alpha_2 in
  (* second loop awaits the first mode for delay_0 bins *)
  let phi_1 := await delay_0 phi_1 in
  let alpha_1 := await delay_0 alpha_1 in
  (* third loop awaits the first mode for delay_0 + delay_1 bins *)
  let phi_2 := await (delay_0 + delay_1) phi_2 in
  let alpha_2 := await (delay_0 + delay_1) alpha_2 in
  (* empty first loop and await the emptying of second and third loop *)
  let r := drain (delay_0 + delay_1 + delay_2) r in
  let phi_0 := drain (delay_0 + delay_1 + delay_2) phi_0 in
  let alpha_0 := drain (delay_0 + delay_1 + delay_2) alpha_0 in
  (* empty second loop and await the emptying of third loop *)
  let phi_1 := drain (delay_1 + delay_2) phi_1 in
  let alpha_1 := drain (delay_1 + delay_2) alpha_1 in
  (* empty third loop *)
  let phi_2 := drain delay_2 phi_2 in
  let alpha_2 := drain delay_2 alpha_2 in
  [r; phi_0; alpha_0; phi_1; alpha_1; phi_2; alpha_2].

(** Both sequences of a loop have one entry per mode. *)
Definition loop_of_length (M : nat) (lp : loop_args) : Prop :=
  length (Rgate lp) = M ∧ length (BSgate lp) = M.

(** The same three steps for a loop that is preceded by loops of total
    delay [before] and has delay [delay]; [after] is its own delay plus
    that of the loops behind it. *)
Definition pad_Rgate (before after : nat) (phi : list A) : list A :=
  drain after (await before phi).

Definition pad_BSgate (before delay after : nat) (alpha : list A) : list A :=
  drain after (await before (fill_loop delay alpha)).

(** The padding for any number of loops: loop [i] is treated as the
    notebook treats its three.  The result lists the rotation and the
    beamsplitter sequence of every loop, in the notebook's order. *)
Fixpoint pad_loops (before : nat) (delays : list nat)
    (loops : list loop_args) : list (list A) :=
  match delays, loops with
  | delay :: delays', lp :: loops' =>
      let after := delay + sum_list delays' in
      pad_Rgate before after (Rgate lp)
        :: pad_BSgate before delay after (BSgate lp)
        :: pad_loops (before + delay) delays' loops'
  | _, _ => []
  end.

Definition pad_gate_args (delays : list nat) (r : list A)
    (loops : list loop_args) : list (list A) :=
  drain (sum_list delays) r :: pad_loops 0 delays loops.

(** The padded beamsplitter sequence of loop [i], if there is one. *)
Definition padded_BSgate (delays : list nat) (loops : list loop_args)
    (i : nat) : option (list A) :=
  pad_loops 0 delays loops !! (2 * i + 1).
End Padding.
End GateArgs.

(** The second property of the padded beamsplitter sequences as the
    specification words it, for one loop with delay [delay] whose own and
    following delays sum to [after]: the first [delay] and the last
    [after] entries are the idle value, and the entries in between carry
    values the user supplied (read in the weakest way: each is one of the
    user's beamsplitter values). *)
Definition fill_drain_as_stated {A : Type} (zero : A) (delay after : nat)
    (user s : list A) : Prop :=
  (∀ t, t < delay → s !! t = Some zero) ∧
  (∀ t, length s - after ≤ t < length s → s !! t = Some zero) ∧
  (∀ t, delay ≤ t < length s - after → ∃ u, s !! t = Some u ∧ u ∈ user).

(** *** Mode indices *)

Module ModeIndices.
(** [register_offsets[0] = 0] and [register_offsets[i] =
    register_offsets[i-1] + length_(i-1)]: the running sums, started
    at [acc]. *)
Fixpoint register_offsets (acc : Z) (delays : list Z) : list Z :=
  match delays with
  | [] => []
  | d :: delays' => acc :: register_offsets (acc + d) delays'
  end.

Definition sum_delays (delays : list Z) : Z := foldr Z.add 0%Z delays.

(** Modelled from the spec: [get_mode_indices] of [strawberryfields.tdm],
    which the notebooks import and call as [n, N = get_mode_indices(delays)]
    but do not define.  Section 4.1: [N = 1 + sum of the lengths]; the
    offsets are the running sums with a trailing offset [N - 1]; the
    call fails on an empty list or on a length [<= 0]. *)
Definition get_mode_indices (delays : list Z) : option (list Z * Z) :=
  match delays with
  | [] => None
  | _ :: _ =>
      if forallb (λ d, 0 <? d)%Z delays then
        let N := (1 + sum_delays delays)%Z in
        Some (register_offsets 0 delays ++ [(N - 1)%Z], N)
      else None
  end.
End ModeIndices.

(** *** Cropping the vacuum modes from the samples *)

Module Crop.
(** A sample array of shape [(shots, spatial_modes, temporal_modes)]. *)
Abbreviation samples A := (list (list (list A))).

Section Samples.
Context {A : Type}.

Definition has_shape (shots spatial temporal : nat) (s : samples A) : Prop :=
  length s = shots ∧
  Forall (λ shot, length shot = spatial ∧
                  Forall (λ row, length row = temporal) shot) s.

(** [s[shot, spatial, t]] *)
Definition sample_at (s : samples A) (shot spatial t : nat) : option A :=
  rows ← s !! shot; row ← rows !! spatial; row !! t.

(** [results.samples[..., k:]] (advanced tutorial, with [k = 43]):
    every row loses its first [k] entries. *)
Definition slice_from (k : nat) (s : samples A) : samples A :=
  fmap (M:=list) (fmap (M:=list) (drop k)) s.

End Samples.
End Crop.

(** *** Realistic loss: tiling the channel efficiencies *)

Module Loss.
(** [int(np.ceil(a / b))] for non-negative integers *)
Definition ceil_div (a b : nat) : nat := (a + (b - 1)) / b.

(** The cell that repeats the detector-channel efficiencies for the
    length of the program:
    [reps = int(np.ceil(prog_length / 16))],
    [etas_ch_rel = np.tile(etas_ch_rel, reps)[:prog_length]]. *)
Definition tile_etas_ch_rel {A : Type} (etas_ch_rel : list A)
    (prog_length : nat) : list A :=
  let reps := ceil_div prog_length 16 in
  take prog_length (Py.tile etas_ch_rel reps).

(** Detector [i] sees the temporal modes [i + C n]. *)
Definition detector (C t : nat) : nat := t mod C.
End Loss.

(** *** Squeezing quantization *)

Module Squeezing.
Definition dist (v s : Q) : Q := Qabs (s - v).

Definition Qlt_bool (a b : Q) : bool := negb (Qle_bool b a).

(** [s] is preferred to the candidate [c]: strictly nearer to [v], or
    as near and lower. *)
Definition preferred (v s c : Q) : bool :=
  Qlt_bool (dist v s) (dist v c)
  || (Qeq_bool (dist v s) (dist v c) && Qlt_bool s c).

Definition pick (v c s : Q) : Q := if preferred v s c then s else c.

(** [a] is at least as good an answer for [v] as [b]: nearer, or as
    near and not higher. *)
Definition no_worse (v a b : Q) : Prop :=
  (dist v a < dist v b)%Q ∨ (dist v a == dist v b ∧ a <= b)%Q.

(** Modelled from the spec: the squeezing step of [full_compile] of
    [strawberryfields.tdm], which the beginner tutorial calls but does
    not define.  Section 4.2, step 1: the requested value is replaced by
    the supported value of least absolute difference, the lower one on
    a tie.  Values are rationals; there is no answer when nothing is
    supported. *)
Definition quantize (supported : list Q) (v : Q) : option Q :=
  match supported with
  | [] => None
  | s0 :: rest => Some (fold_left (pick v) rest s0)
  end.
End Squeezing.

(** *** The time-domain circuits *)

Module Circuit.
(** What a gate is applied with: the [k]-th argument sequence [p[k]] of
    the program, or a value fixed when the circuit is written. *)
Inductive arg :=
| p (k : nat)
| pi_half               (* np.pi / 2 *)
| phis_loop (i : nat)   (* phis_loop[i] *)
| eta_glob
| etas_loop (i : nat).  (* etas_loop[i] *)

(** The register a gate acts on: [q[n[i]]] or [q[j]]. *)
Inductive reg :=
| q_n (i : nat)
| q (j : nat).

Inductive gate :=
| Sgate (r : arg)
| Rgate (phi : arg)
| BSgate (theta phi : arg)
| LossChannel (T : arg)
| MeasureFock.

Record command := Cmd { op : gate; regs : list reg }.

Notation "g '|' r" := (Cmd g r) (at level 60, no associativity).

(** [for i in range(len(delays)): body] *)
Definition for_range (len : nat) (body : nat → list command) : list command :=
  flat_map body (seq 0 len).

(** Quickstart and beginner tutorial, for [len = len(delays)] loops. *)
Definition prog (len : nat) : list command :=
  [Sgate (p 0) | [q_n 0]]
  ++ for_range len (λ i,
       [Rgate (p (2 * i + 1)) | [q_n i];
        BSgate (p (2 * i + 2)) pi_half | [q_n (i + 1); q_n i]])
  ++ [MeasureFock | [q 0]].

Definition quickstart := prog.
Definition beginner := prog.

(** Advanced tutorial: the loop phases are part of the circuit. *)
Definition advanced (len : nat) : list command :=
  [Sgate (p 0) | [q_n 0]]
  ++ for_range len (λ i,
       [Rgate (p (2 * i + 1)) | [q_n i];
        BSgate (p (2 * i + 2)) pi_half | [q_n (i + 1); q_n i];
        Rgate (phis_loop i) | [q_n i]])
  ++ [MeasureFock | [q 0]].

(** Advanced tutorial, realistic simulation. *)
Definition prog_sim (len : nat) : list command :=
  [Sgate (p 0) | [q_n 0];
   LossChannel eta_glob | [q_n 0]]
  ++ for_range len (λ i,
       [Rgate (p (2 * i + 1)) | [q_n i];
        BSgate (p (2 * i + 2)) pi_half | [q_n (i + 1); q_n i];
        Rgate (phis_loop i) | [q_n i];
        LossChannel (etas_loop i) | [q_n i]])
  ++ [LossChannel (p 7) | [q 0];
      MeasureFock | [q 0]].

(** Advanced tutorial, the passive circuit of the transfer matrix. *)
Definition prog_passive (len : nat) : list command :=
  [LossChannel eta_glob | [q_n 0]]
  ++ for_range len (λ i,
       [Rgate (p (2 * i + 1)) | [q_n i];
        BSgate (p (2 * i + 2)) pi_half | [q_n (i + 1); q_n i];
        Rgate (phis_loop i) | [q_n i];
        LossChannel (etas_loop i) | [q_n i]])
  ++ [LossChannel (p 7) | [q 0]].

(** A beamsplitter command has the constant [pi / 2] as its second
    argument and the argument sequence of its loop as its first. *)
Definition fixed_phase (len : nat) (cmd : command) : Prop :=
  ∀ theta phi, op cmd = BSgate theta phi ->
    phi = pi_half ∧ ∃ i, i < len ∧ theta = p (2 * i + 2).

(** Every circuit the notebooks construct. *)
Definition programs (len : nat) : list (list command) :=
  [quickstart len; beginner len; advanced len; prog_sim len; prog_passive len].
End Circuit.

(** *** The transfer matrix *)

Module Transfer.
(** Matrices are lists of rows, as a two-dimensional array. *)
Abbreviation matrix K := (list (list K)).

Section Matrices.
Context {K : Type} (zero one : K) (add mul : K → K → K).

Definition has_shape (rows cols : nat) (m : matrix K) : Prop :=
  length m = rows ∧ Forall (λ row, length row = cols) m.

Definition entry (m : matrix K) (i j : nat) : option K :=
  row ← m !! i; row !! j.

(** [m[lo:hi, lo:hi]], as in
    [transfer_matrix_tot[vac_modes:prog_length, vac_modes:prog_length]]. *)
Definition slice (lo hi : nat) (l : list K) : list K := drop lo (take hi l).

Definition slice2 (lo hi : nat) (m : matrix K) : matrix K :=
  fmap (M:=list) (slice lo hi) (drop lo (take hi m)).

Definition build (rows cols : nat) (f : nat → nat → K) : matrix K :=
  fmap (M:=list) (λ i, fmap (M:=list) (f i) (seq 0 cols)) (seq 0 rows).

Definition coeff (m : matrix K) (i j : nat) : K := default zero (entry m i j).

Definition identity (L : nat) : matrix K :=
  build L L (λ i j, if decide (i = j) then one else zero).

Definition mmul (L : nat) (a b : matrix K) : matrix K :=
  build L L (λ i j,
    foldr add zero
      (fmap (M:=list) (λ k, mul (coeff a i k) (coeff b k j)) (seq 0 L))).

(** The operations of an unrolled circuit on its registers.  The passive
    ones carry their operator: 1x1 for a rotation and for a loss, 2x2 for
    a beamsplitter on two registers. *)
Inductive operation :=
| Rotation (q : nat) (u : K)
| Beamsplitter (q1 q2 : nat) (u11 u12 u21 u22 : K)
| Loss (q : nat) (t : K)
| Squeezing (q : nat)
| Measurement (q : nat).

Definition is_squeezing (o : operation) : bool :=
  match o with Squeezing _ => true | _ => false end.

Definition is_passive (o : operation) : bool :=
  match o with
  | Rotation _ _ | Beamsplitter _ _ _ _ _ _ | Loss _ _ => true
  | Squeezing _ | Measurement _ => false
  end.

(** The identity over [L] registers with [u] at [(q, q)]. *)
Definition embed1 (L q : nat) (u : K) : matrix K :=
  build L L (λ i j,
    if decide (i = q ∧ j = q) then u
    else if decide (i = j) then one else zero).

(** The identity over [L] registers with the 2x2 operator at the rows and
    columns [q1] and [q2]. *)
Definition embed2 (L q1 q2 : nat) (u11 u12 u21 u22 : K) : matrix K :=
  build L L (λ i j,
    if decide (i = q1 ∧ j = q1) then u11
    else if decide (i = q1 ∧ j = q2) then u12
    else if decide (i = q2 ∧ j = q1) then u21
    else if decide (i = q2 ∧ j = q2) then u22
    else if decide (i = j) then one else zero).

(** Modelled from the spec: the embedding step of the passive compiler
    (section 4.5).  The operator of a passive operation is embedded into
    the identity over [L] registers; an operation that is not passive has
    none. *)
Definition embed (L : nat) (o : operation) : option (matrix K) :=
  match o with
  | Rotation q0 u => Some (embed1 L q0 u)
  | Beamsplitter q1 q2 u11 u12 u21 u22 => Some (embed2 L q1 q2 u11 u12 u21 u22)
  | Loss q0 t => Some (embed1 L q0 t)
  | Squeezing _ | Measurement _ => None
  end.

(** Modelled from the spec: the passive compiler behind
    [prog_passive.compile(compiler="passive")], which the advanced
    tutorial calls but does not define.  Section 4.5: every operation is
    embedded into the identity over the full register set and
    multiplied from the left in chronological order; the extraction
    fails on an operation that is not passive, such as squeezing. *)
Fixpoint extract_from (L : nat) (acc : matrix K) (ops : list operation)
    : option (matrix K) :=
  match ops with
  | [] => Some acc
  | o :: ops' =>
      match embed L o with
      | Some e => extract_from L (mmul L e acc) ops'
      | None => None
      end
  end.

Definition extract (L : nat) (ops : list operation) : option (matrix K) :=
  extract_from L (identity L) ops.

(** [transfer_matrix = transfer_matrix_tot[vac_modes:prog_length,
    vac_modes:prog_length]]: crop out the vacuum modes. *)
Definition transfer_matrix (vac_modes prog_length : nat)
    (transfer_matrix_tot : matrix K) : matrix K :=
  slice2 vac_modes prog_length transfer_matrix_tot.
End Matrices.
End Transfer.

(** *** Further cells of the notebooks *)

Module Np.
(** [a[:d] = z] on a numpy array (beginner tutorial,
    [alpha_0[:delay_0] = 0.0]): the entries of the slice are overwritten
    and the array keeps its length. *)
Definition assign_prefix {A : Type} (a : list A) (d : nat) (z : A) : list A :=
  replicate (d `min` length a) z ++ drop d a.
End Np.

Module Builtins.
(** [range(a, b)] *)
Definition range (a b : nat) : list nat := seq a (b - a).

End Builtins.

Module Beginner.
(** [alpha[:delay] = 0.0] on the arrays of the beginner tutorial. *)
Definition fill_loop {A : Type} (zero : A) (delay : nat) (alpha : list A)
    : list A :=
  Np.assign_prefix alpha delay zero.
End Beginner.

Module Sequences.
(** The padded rotation sequence of loop [i], if there is one. *)
Definition padded_Rgate {A : Type} (zero : A) (delays : list nat)
    (loops : list (GateArgs.loop_args (A:=A))) (i : nat) : option (list A) :=
  GateArgs.pad_loops zero 0 delays loops !! (2 * i).
End Sequences.

Module Realistic.
(** The cell that appends the channel efficiencies to the gate arguments:
    [prog_length = len(gate_args_list[0])], the tiling, and
    [gate_args_list += [etas_ch_rel]].  [gate_args_list[0]] raises on an
    empty list. *)
Definition add_channel_efficiencies {A : Type} (gate_args_list : list (list A))
    (etas_ch_rel : list A) : option (list (list A)) :=
  match gate_args_list !! 0 with
  | None => None
  | Some r =>
      let prog_length := length r in
      Some (gate_args_list ++ [Loss.tile_etas_ch_rel etas_ch_rel prog_length])
  end.
End Realistic.

Module Layout.
Definition arg_index (a : Circuit.arg) : option nat :=
  match a with Circuit.p k => Some k | _ => None end.

Definition gate_args (g : Circuit.gate) : list Circuit.arg :=
  match g with
  | Circuit.Sgate r => [r]
  | Circuit.Rgate phi => [phi]
  | Circuit.BSgate theta phi => [theta; phi]
  | Circuit.LossChannel T => [T]
  | Circuit.MeasureFock => []
  end.

(** The indices [k] of the argument sequences [p[k]] a circuit uses, in
    the order of its gates. *)
Definition args_used (circuit : list Circuit.command) : list nat :=
  flat_map (λ cmd, omap arg_index (gate_args (Circuit.op cmd))) circuit.

Definition is_loss (cmd : Circuit.command) : bool :=
  match Circuit.op cmd with Circuit.LossChannel _ => true | _ => false end.

Definition is_loop_phase (cmd : Circuit.command) : bool :=
  match Circuit.op cmd with
  | Circuit.Rgate (Circuit.phis_loop _) => true
  | _ => false
  end.

Definition is_Sgate (cmd : Circuit.command) : bool :=
  match Circuit.op cmd with Circuit.Sgate _ => true | _ => false end.

Definition is_measurement (cmd : Circuit.command) : bool :=
  match Circuit.op cmd with Circuit.MeasureFock => true | _ => false end.

(** Gates the passive compiler accepts: rotations, beamsplitters and loss
    channels. *)
Definition is_passive (cmd : Circuit.command) : bool :=
  match Circuit.op cmd with
  | Circuit.Rgate _ | Circuit.BSgate _ _ | Circuit.LossChannel _ => true
  | Circuit.Sgate _ | Circuit.MeasureFock => false
  end.
(** What the registers of one command of a circuit of [len] loops are:
    the rotation, loop phase and loss of loop [i] act on [q[n[i]]], its
    beamsplitter on [(q[n[i + 1]], q[n[i]])]; the squeezer and the common
    loss act on [q[n[0]]], the channel loss and the measurement on
    [q[0]]. *)
Definition registers_as_laid_out (len : nat) (cmd : Circuit.command) : Prop :=
  match Circuit.op cmd with
  | Circuit.Sgate _ | Circuit.LossChannel Circuit.eta_glob =>
      Circuit.regs cmd = [Circuit.q_n 0]
  | Circuit.Rgate (Circuit.p k) =>
      ∃ i, i < len ∧ k = 2 * i + 1 ∧ Circuit.regs cmd = [Circuit.q_n i]
  | Circuit.Rgate (Circuit.phis_loop i)
  | Circuit.LossChannel (Circuit.etas_loop i) =>
      i < len ∧ Circuit.regs cmd = [Circuit.q_n i]
  | Circuit.BSgate (Circuit.p k) _ =>
      ∃ i, i < len ∧ k = 2 * i + 2 ∧
           Circuit.regs cmd = [Circuit.q_n (i + 1); Circuit.q_n i]
  | Circuit.LossChannel (Circuit.p _) | Circuit.MeasureFock =>
      Circuit.regs cmd = [Circuit.q 0]
  | _ => False
  end.
End Layout.

Module Moments.
Section Arrays.
Context {K : Type} (zero : K) (sub : K → K → K).

(** The shape of a two-dimensional array kept as a list of rows. *)
Definition shape (m : list (list K)) : nat * nat :=
  (length m, match m with [] => 0 | row :: _ => length row end).

(** [m[i, j]], with the default [zero] outside the array. *)
Definition at_ (m : list (list K)) (i j : nat) : K :=
  default zero (row ← m !! i; row !! j).

(** [np.diag(m)] on a two-dimensional array of shape [(r, c)]: the
    [min r c] entries [m[i, i]]. *)
Definition diag_of (m : list (list K)) : list K :=
  let '(r, c) := shape m in
  fmap (M:=list) (λ i, at_ m i i) (seq 0 (r `min` c)).

(** [np.diag(v)] on a one-dimensional array: the square array with [v]
    on its diagonal and zeros elsewhere. *)
Definition diag_matrix (v : list K) : list (list K) :=
  fmap (M:=list)
    (λ i, fmap (M:=list)
            (λ j, if decide (i = j) then default zero (v !! i) else zero)
            (seq 0 (length v)))
    (seq 0 (length v)).

(** An axis of length [k] can be broadcast to length [n]. *)
Definition broadcasts (k n : nat) : bool :=
  bool_decide (k = n) || bool_decide (k = 1).

(** [a -= b] on two-dimensional arrays: [b] is broadcast to the shape of
    [a], and the statement raises when it cannot be. *)
Definition isub (a b : list (list K)) : option (list (list K)) :=
  let '(r, c) := shape a in
  let '(r', c') := shape b in
  if broadcasts r' r && broadcasts c' c then
    Some (imap (λ i row,
            imap (λ j x,
              let i' := if bool_decide (r' = 1) then 0 else i in
              let j' := if bool_decide (c' = 1) then 0 else j in
              sub x (at_ b i' j')) row) a)
  else None.

(** [cov -= np.diag(np.diag(cov))] of
    [plot_photon_number_moment_comparison] in the beginner tutorial:
    remove the diagonal elements. *)
Definition remove_diagonal (cov : list (list K)) : option (list (list K)) :=
  isub cov (diag_matrix (diag_of cov)).
End Arrays.
End Moments.

(** *** The transfer matrix as an action on column vectors *)

Module Action.
Section Vectors.
Context {K : Type} (zero one : K) (add mul : K → K → K).

(** The laws of the coefficients that composing operators relies on. *)
Record semiring_laws : Prop := SemiringLaws {
  add_comm : ∀ x y, add x y = add y x;
  add_assoc : ∀ x y z, add x (add y z) = add (add x y) z;
  add_0_l : ∀ x, add zero x = x;
  mul_assoc : ∀ x y z, mul x (mul y z) = mul (mul x y) z;
  mul_0_l : ∀ x, mul zero x = zero;
  mul_0_r : ∀ x, mul x zero = zero;
  mul_1_l : ∀ x, mul one x = x;
  mul_1_r : ∀ x, mul x one = x;
  mul_add_l : ∀ x y z, mul x (add y z) = add (mul x y) (mul x z);
  mul_add_r : ∀ x y z, mul (add x y) z = add (mul x z) (mul y z)
}.

(** The amplitude of register [j] in a column vector. *)
Definition vget (v : list K) (j : nat) : K := default zero (v !! j).

Definition sum_over (l : list nat) (f : nat → K) : K :=
  foldr add zero (fmap (M:=list) f l).

(** A matrix over [L] registers applied to a column vector. *)
Definition mat_vec (L : nat) (m : Transfer.matrix K) (v : list K) : list K :=
  fmap (M:=list)
    (λ i, sum_over (seq 0 L)
            (λ j, mul (Transfer.coeff zero m i j) (vget v j)))
    (seq 0 L).

(** The column vector with amplitude one in register [j] only. *)
Definition basis (L j : nat) : list K :=
  fmap (M:=list) (λ k, if decide (k = j) then one else zero) (seq 0 L).

(** An operation names registers of the circuit, two different ones for a
    beamsplitter. *)
Definition well_formed (L : nat) (o : Transfer.operation (K:=K)) : bool :=
  match o with
  | Transfer.Rotation q _ | Transfer.Loss q _
  | Transfer.Squeezing q | Transfer.Measurement q => bool_decide (q < L)
  | Transfer.Beamsplitter q1 q2 _ _ _ _ =>
      bool_decide (q1 < L) && bool_decide (q2 < L) && bool_decide (q1 ≠ q2)
  end.

(** Modelled from the spec: what one passive operation does to the column
    vector of register amplitudes (section 4.5: 1x1 operators act on one
    register, 2x2 operators on two, everything else is left alone).  An
    operation that is not passive has no such action. *)
Definition apply_op (o : Transfer.operation (K:=K)) (v : list K)
    : option (list K) :=
  match o with
  | Transfer.Rotation q u | Transfer.Loss q u =>
      Some (<[q := mul u (vget v q)]> v)
  | Transfer.Beamsplitter q1 q2 u11 u12 u21 u22 =>
      Some (<[q2 := add (mul u21 (vget v q1)) (mul u22 (vget v q2))]>
              (<[q1 := add (mul u11 (vget v q1)) (mul u12 (vget v q2))]> v))
  | Transfer.Squeezing _ | Transfer.Measurement _ => None
  end.

(** The operations applied one after the other, in chronological order. *)
Fixpoint act (ops : list (Transfer.operation (K:=K))) (v : list K)
    : option (list K) :=
  match ops with
  | [] => Some v
  | o :: ops' =>
      match apply_op o v with
      | Some v' => act ops' v'
      | None => None
      end
  end.
End Vectors.
End Action.

(** ** Part II: proofs *)

Section PaddingFacts.
Context {A : Type} (zero : A).
Import GateArgs.

Lemma length_fill_loop delay (alpha : list A) :
  delay <= length alpha -> length (fill_loop zero delay alpha) = length alpha.
Proof.
  intros H. unfold fill_loop, Py.assign_prefix, Py.times.
  rewrite length_app, length_replicate, length_drop. lia.
Qed.

Lemma length_await d (s : list A) : length (await zero d s) = d + length s.
Proof. unfold await, Py.times. by rewrite length_app, length_replicate. Qed.

Lemma length_drain d (s : list A) : length (drain zero d s) = length s + d.
Proof. unfold drain, Py.times. by rewrite length_app, length_replicate. Qed.

(** The notebook's three loops are the instance [[delay_0; delay_1;
    delay_2]] of the general padding. *)
Lemma gate_args_list_pad_gate_args modes r0 d0 d1 d2
    (phi_0 phi_1 phi_2 alpha_0 alpha_1 alpha_2 : list A) :
  gate_args_list zero modes r0 d0 d1 d2 phi_0 phi_1 phi_2 alpha_0 alpha_1 alpha_2
  = pad_gate_args zero [d0; d1; d2] (Py.times r0 modes)
      [LoopArgs phi_0 alpha_0; LoopArgs phi_1 alpha_1; LoopArgs phi_2 alpha_2].
Proof.
  unfold gate_args_list, pad_gate_args, pad_Rgate, pad_BSgate; simpl.
  rewrite !Nat.add_0_r, !Nat.add_assoc.
  reflexivity.
Qed.

Lemma length_pad_Rgate before after (phi : list A) :
  length (pad_Rgate zero before after phi) = before + length phi + after.
Proof. unfold pad_Rgate. by rewrite length_drain, length_await. Qed.

Lemma length_pad_BSgate before delay after (alpha : list A) :
  delay <= length alpha ->
  length (pad_BSgate zero before delay after alpha)
  = before + length alpha + after.
Proof.
  intros H. unfold pad_BSgate.
  by rewrite length_drain, length_await, length_fill_loop.
Qed.

Lemma pad_loops_lengths M delays : ∀ before loops,
  Forall (loop_of_length M) loops ->
  Forall (λ d, d <= M) delays ->
  Forall (λ s, length s = before + M + sum_list delays)
         (pad_loops zero before delays loops).
Proof.
  induction delays as [|d delays IH]; intros before loops Hl Hd; simpl.
  { constructor. }
  destruct loops as [|lp loops]; [constructor|].
  inversion_clear Hl as [|? ? [HR HB] Hl']. inversion_clear Hd as [|? ? Hd0 Hd'].
  repeat constructor.
  - rewrite length_pad_Rgate. lia.
  - rewrite length_pad_BSgate by lia. lia.
  - eapply Forall_impl; [apply IH; assumption|].
    simpl. intros s Hs. lia.
Qed.

Lemma length_pad_loops : ∀ delays before loops,
  length loops = length delays ->
  length (pad_loops zero before delays loops) = 2 * length delays.
Proof.
  induction delays as [|d delays IH]; intros before [|lp loops] Hlen;
    simpl in *; try done.
  rewrite IH by lia. lia.
Qed.

(** Where the beamsplitter sequence of loop [i] sits, and what it is. *)
Lemma padded_BSgate_lookup : ∀ i delays before loops d lp,
  delays !! i = Some d -> loops !! i = Some lp ->
  pad_loops zero before delays loops !! (2 * i + 1)
  = Some (pad_BSgate zero (before + sum_list (take i delays)) d
            (sum_list (drop i delays)) (BSgate lp)).
Proof.
  induction i as [|i IH]; intros [|d0 delays] before [|lp0 loops] d lp Hd Hl;
    simplify_eq/=.
  - by rewrite Nat.add_0_r.
  - replace (i + S (i + 0) + 1) with (S (2 * i + 1)) by lia. simpl.
    rewrite (IH delays (before + d0) loops d lp Hd Hl).
    by rewrite Nat.add_assoc.
Qed.

Lemma pad_BSgate_fill before delay after (alpha : list A) t :
  t < before + delay ->
  pad_BSgate zero before delay after alpha !! t = Some zero.
Proof.
  intros Ht. unfold pad_BSgate, drain, await, fill_loop, Py.assign_prefix, Py.times.
  rewrite app_assoc, <- app_assoc, <- replicate_add.
  rewrite lookup_app_l by (rewrite length_replicate; lia).
  by apply lookup_replicate_2.
Qed.

Lemma pad_BSgate_drain before delay after (alpha : list A) t :
  delay <= length alpha ->
  before + length alpha <= t < before + length alpha + after ->
  pad_BSgate zero before delay after alpha !! t = Some zero.
Proof.
  intros Hd Ht. unfold pad_BSgate, drain.
  rewrite lookup_app_r by (rewrite length_await, length_fill_loop; lia).
  rewrite length_await, length_fill_loop by lia.
  apply lookup_replicate_2. lia.
Qed.

Lemma pad_BSgate_user before delay after (alpha : list A) t :
  delay <= t < length alpha ->
  pad_BSgate zero before delay after alpha !! (before + t) = alpha !! t.
Proof.
  intros Ht. unfold pad_BSgate, drain, await, fill_loop, Py.assign_prefix, Py.times.
  rewrite lookup_app_l
    by (rewrite !length_app, !length_replicate, length_drop; lia).
  rewrite lookup_app_r by (rewrite length_replicate; lia).
  rewrite length_replicate.
  rewrite lookup_app_r by (rewrite length_replicate; lia).
  rewrite length_replicate, lookup_drop. f_equal. lia.
Qed.

(** When no delay exceeds the number of modes [M], padding [M]-entry gate
    sequences for the delays [delays] gives one squeezing sequence and a
    rotation and a beamsplitter sequence per loop, and every one of them
    has the common length [L = M + sum of the delays]. *)
Theorem padded_program_lengths M delays (r : list A) loops :
  length r = M ->
  length loops = length delays ->
  Forall (loop_of_length M) loops ->
  Forall (λ d, d <= M) delays ->
  length (pad_gate_args zero delays r loops) = 1 + 2 * length delays ∧
  Forall (λ s, length s = M + sum_list delays)
         (pad_gate_args zero delays r loops).
Proof.
  intros Hr Hlen Hloops Hdelays. unfold pad_gate_args. split.
  - simpl. by rewrite length_pad_loops.
  - constructor.
    + rewrite length_drain. lia.
    + eapply Forall_impl; [by apply (pad_loops_lengths M)|].
      simpl. intros s Hs. lia.
Qed.

(** C2 (amended).  For loop [i] with delay [d <= M], [before] the total
    delay of the loops in front of it and [after] its own delay plus that
    of the loops behind it: the padded beamsplitter sequence has length
    [M + sum of the delays]; its first [before + d] entries (so its first
    [d]) and its last [after] entries are the full-transmission value;
    the [M - d] entries in between are the user's entries [d .. M-1],
    moved [before] time bins back. *)
Theorem padded_BSgate_fill_drain M delays loops i d lp :
  delays !! i = Some d ->
  loops !! i = Some lp ->
  length (BSgate lp) = M ->
  d <= M ->
  let before := sum_list (take i delays) in
  let after := sum_list (drop i delays) in
  ∃ s : list A,
    padded_BSgate zero delays loops i = Some s ∧
    length s = M + sum_list delays ∧
    (∀ t, t < before + d -> s !! t = Some zero) ∧
    (∀ t, length s - after <= t < length s -> s !! t = Some zero) ∧
    (∀ t, d <= t < M -> s !! (before + t) = BSgate lp !! t).
Proof.
  intros Hd Hlp HM HdM before after.
  assert (Hsum : sum_list delays = before + after).
  { subst before after. rewrite <- (take_drop i delays) at 1.
    apply sum_list_with_app. }
  eexists. split; [|split; [|split; [|split]]].
  - unfold padded_BSgate. by apply padded_BSgate_lookup.
  - rewrite length_pad_BSgate by lia. simpl. fold before after. lia.
  - intros t Ht. apply pad_BSgate_fill. simpl. by fold before.
  - intros t. rewrite length_pad_BSgate by lia. simpl. fold before after.
    intros Ht. apply pad_BSgate_drain; lia.
  - intros t Ht. simpl. fold before. apply pad_BSgate_user. lia.
Qed.
End PaddingFacts.

(** The advanced tutorial's own input: 216 modes, delays 1, 6 and 36. *)
Lemma padded_program_lengths_witness :
  Forall (λ s, length s = 259)
    (GateArgs.gate_args_list 0%Q 216 1%Q 1 6 36
       (replicate 216 (1#4)%Q) (replicate 216 (1#4)%Q) (replicate 216 (1#4)%Q)
       (replicate 216 (7#8)%Q) (replicate 216 (7#8)%Q) (replicate 216 (7#8)%Q)).
Proof.
  rewrite gate_args_list_pad_gate_args.
  apply (padded_program_lengths 0%Q 216 [1; 6; 36]).
  - vm_compute; reflexivity.
  - reflexivity.
  - repeat constructor.
  - repeat constructor; lia.
Defined.

(** C1.  With one mode and the delays 1, 6 and 36 the seven sequences of
    the advanced tutorial do not share the length [M + sum of the delays]
    [= 44]: filling a list shorter than the delay lengthens it, and the
    beamsplitter sequences of the second and third loop have 49 and 79
    entries. *)
Lemma single_mode_lengths :
  map length
    (GateArgs.gate_args_list 0%Q 1 1%Q 1 6 36
       [(1#4)%Q] [(1#4)%Q] [(1#4)%Q] [(7#8)%Q] [(7#8)%Q] [(7#8)%Q])
  = [44; 44; 44; 44; 49; 44; 79].
Proof. vm_compute. reflexivity. Qed.

(** So the sequences are not all of length 44. *)
Lemma single_mode_unequal_lengths :
  ¬ Forall (λ s, length s = 1 + sum_list [1; 6; 36])
      (GateArgs.gate_args_list 0%Q 1 1%Q 1 6 36
         [(1#4)%Q] [(1#4)%Q] [(1#4)%Q] [(7#8)%Q] [(7#8)%Q] [(7#8)%Q]).
Proof.
  intros H.
  pose proof (Forall_lookup_1 _ _ 4 _ H eq_refl) as H4.
  vm_compute in H4. discriminate H4.
Qed.

(** Scenario D: a single loop of delay 3 and 5 modes. *)
Lemma padded_BSgate_fill_drain_witness :
  ∃ s : list Q,
    GateArgs.padded_BSgate 0%Q [3]
      [GateArgs.LoopArgs [1; 2; 3; 4; 5]%Q [11; 12; 13; 14; 15]%Q] 0 = Some s ∧
    length s = 8 ∧
    (∀ t, t < 3 -> s !! t = Some 0%Q) ∧
    (∀ t, 5 <= t < 8 -> s !! t = Some 0%Q) ∧
    (∀ t, 3 <= t < 5 -> s !! t = [11; 12; 13; 14; 15]%Q !! t).
Proof.
  destruct (padded_BSgate_fill_drain 0%Q 5 [3]
              [GateArgs.LoopArgs [1; 2; 3; 4; 5]%Q [11; 12; 13; 14; 15]%Q]
              0 3 _ eq_refl eq_refl eq_refl ltac:(lia))
    as (s & Hs & Hlen & Hfill & Hdrain & Huser).
  exists s. simpl in *.
  split; [exact Hs|]. split; [exact Hlen|]. split; [exact Hfill|].
  split; [|exact Huser].
  intros t Ht. apply Hdrain. rewrite Hlen. lia.
Defined.

(** C2 as stated fails for the second loop of the advanced tutorial
    (delay 6, behind a loop of delay 1): time bin 6 lies between the first
    6 and the last 42 entries of its beamsplitter sequence, and is idle
    whatever the user supplied. *)
Lemma second_loop_not_as_stated :
  ∃ s : list Q,
    GateArgs.gate_args_list 0%Q 216 1%Q 1 6 36
      (replicate 216 (1#4)%Q) (replicate 216 (1#4)%Q) (replicate 216 (1#4)%Q)
      (replicate 216 (7#8)%Q) (replicate 216 (7#8)%Q) (replicate 216 (7#8)%Q)
      !! 4 = Some s ∧
    ¬ fill_drain_as_stated 0%Q 6 (6 + 36) (replicate 216 (7#8)%Q) s.
Proof.
  eexists. split; [reflexivity|].
  intros (_ & _ & Hbetween).
  destruct (Hbetween 6) as (u & Hu & Hin).
  { vm_compute. split; lia. }
  vm_compute in Hu. injection Hu as <-.
  apply elem_of_replicate in Hin as [Hin _]. discriminate Hin.
Qed.

(** *** Mode indices *)

Section ModeIndicesFacts.
Import ModeIndices.
Local Open Scope Z_scope.

Lemma length_register_offsets delays : ∀ acc,
  length (register_offsets acc delays) = length delays.
Proof. induction delays as [|d delays IH]; intros acc; simpl; auto. Qed.

(** Each offset is the one before it plus the delay before it, up to and
    including the trailing offset. *)
Lemma register_offsets_step delays : ∀ acc (i : nat) d o,
  delays !! i = Some d ->
  (register_offsets acc delays ++ [acc + sum_delays delays]) !! i = Some o ->
  (register_offsets acc delays ++ [acc + sum_delays delays]) !! S i
  = Some (o + d).
Proof.
  induction delays as [|d0 delays IH]; intros acc i d o Hd Ho; [done|].
  simpl in *. rewrite Z.add_assoc in *.
  destruct i as [|i]; simplify_eq/=.
  - destruct delays; simpl; f_equal; lia.
  - by apply IH.
Qed.

Lemma positive_delays_forallb delays :
  forallb (λ d, 0 <? d) delays = true ↔ Forall (λ d, 0 < d) delays.
Proof.
  rewrite forallb_forall, Forall_forall.
  split; intros H d Hd.
  - apply Z.ltb_lt, H. by apply list_elem_of_In.
  - apply Z.ltb_lt, H. by apply list_elem_of_In.
Qed.

(** C3.  On a non-empty list of positive delays the calculator returns
    [N = 1 + sum of the delays] and one offset per loop plus a trailing
    one: the first is 0, each next one adds the delay of the loop before
    it, and the trailing one is [N - 1].  It fails exactly when the list
    is empty or holds a delay [<= 0]. *)
Theorem get_mode_indices_spec (delays : list Z) :
  (get_mode_indices delays = None
   ↔ delays = [] ∨ ∃ d, d ∈ delays ∧ d <= 0) ∧
  (delays ≠ [] -> Forall (λ d, 0 < d) delays ->
   ∃ n N,
     get_mode_indices delays = Some (n, N) ∧
     N = 1 + sum_delays delays ∧
     length n = S (length delays) ∧
     n !! 0%nat = Some 0 ∧
     (∀ (i : nat) d o,
        delays !! i = Some d -> n !! i = Some o -> n !! S i = Some (o + d)) ∧
     n !! length delays = Some (N - 1)).
Proof.
  split.
  - destruct delays as [|d0 delays]; [simpl; split; auto|].
    unfold get_mode_indices.
    destruct (forallb _ _) eqn:Hall.
    + split; [done|]. intros [?|(d & Hin & Hle)]; [done|].
      apply positive_delays_forallb in Hall.
      rewrite Forall_forall in Hall. specialize (Hall d Hin). lia.
    + split; [|done]. intros _. right.
      assert (Hex : ¬ Forall (λ d, 0 < d) (d0 :: delays)).
      { rewrite <- positive_delays_forallb. by rewrite Hall. }
      apply not_Forall_Exists in Hex; [|intros d; apply Z_lt_dec].
      apply Exists_exists in Hex as (d & Hin & Hd). simpl in Hd.
      exists d. split; [done|lia].
  - intros Hne Hpos. destruct delays as [|d0 delays]; [done|].
    unfold get_mode_indices.
    apply positive_delays_forallb in Hpos. rewrite Hpos.
    set (ds := d0 :: delays) in *.
    replace (1 + sum_delays ds - 1) with (0 + sum_delays ds) by lia.
    eexists _, _. split; [reflexivity|]. split; [reflexivity|].
    split; [|split; [|split]].
    + rewrite length_app, length_register_offsets. simpl. lia.
    + reflexivity.
    + intros i d o. apply register_offsets_step.
    + rewrite lookup_app_r by (rewrite length_register_offsets; lia).
      rewrite length_register_offsets, Nat.sub_diag. simpl. f_equal. lia.
Qed.
End ModeIndicesFacts.

(** The delays of the device: 44 concurrent modes. *)
Lemma get_mode_indices_spec_witness :
  ∃ n N,
    ModeIndices.get_mode_indices [1; 6; 36]%Z = Some (n, N) ∧
    N = 44%Z ∧ n = [0; 1; 7; 43]%Z ∧ n !! 3 = Some (N - 1)%Z.
Proof.
  destruct (proj2 (get_mode_indices_spec [1; 6; 36]%Z))
    as (n & N & Hn & HN & _ & _ & _ & Hlast).
  - discriminate.
  - repeat constructor.
  - exists n, N. vm_compute in Hn. injection Hn as <- <-.
    split; [reflexivity|]. split; [reflexivity|]. split; [reflexivity|].
    exact Hlast.
Defined.

(** *** Cropping *)

Section CropFacts.
Context {A : Type}.
Import Crop.

Lemma sample_at_slice_from k (s : samples A) shot spatial t :
  sample_at (slice_from k s) shot spatial t = sample_at s shot spatial (k + t).
Proof.
  unfold sample_at, slice_from.
  rewrite list_lookup_fmap. destruct (s !! shot) as [rows|]; simpl; [|done].
  rewrite list_lookup_fmap. destruct (rows !! spatial) as [row|]; simpl; [|done].
  apply lookup_drop.
Qed.

Lemma has_shape_slice_from k shots spatial temporal (s : samples A) :
  has_shape shots spatial temporal s ->
  has_shape shots spatial (temporal - k) (slice_from k s).
Proof.
  intros [Hshots Hrows]. unfold slice_from. split.
  - by rewrite length_fmap.
  - apply Forall_fmap. eapply Forall_impl; [exact Hrows|].
    intros shot [Hsp Hrow]. simpl. split.
    + by rewrite length_fmap.
    + apply Forall_fmap. eapply Forall_impl; [exact Hrow|].
      intros row Hlen. simpl in *. rewrite length_drop. lia.
Qed.

End CropFacts.

(** *** Channel efficiencies *)

Section LossFacts.
Context {A : Type}.
Import Loss.

Lemma length_tile (l : list A) reps :
  length (Py.tile l reps) = reps * length l.
Proof.
  unfold Py.tile. induction reps as [|reps IH]; simpl; [done|].
  by rewrite length_app, IH.
Qed.

Lemma lookup_tile (l : list A) : ∀ reps t,
  t < reps * length l -> Py.tile l reps !! t = l !! (t mod length l).
Proof.
  unfold Py.tile. induction reps as [|reps IH]; intros t Ht; simpl in *; [lia|].
  destruct (decide (t < length l)) as [Hlt|Hge].
  - rewrite lookup_app_l by done. by rewrite Nat.mod_small.
  - rewrite lookup_app_r by lia. rewrite IH by lia. f_equal.
    replace t with ((t - length l) + 1 * length l) at 2 by lia.
    rewrite Nat.Div0.mod_add. done.
Qed.

Lemma ceil_div_16_covers L : L <= 16 * ceil_div L 16.
Proof.
  unfold ceil_div.
  pose proof (Nat.div_mod_eq (L + (16 - 1)) 16) as Hdm.
  pose proof (Nat.mod_upper_bound (L + (16 - 1)) 16 ltac:(lia)).
  lia.
Qed.

(** Sixteen or more channels always cover the program. *)
Lemma sixteen_channels_cover C L : 16 <= C -> L <= C * ceil_div L 16.
Proof. intros HC. pose proof (ceil_div_16_covers L). nia. Qed.

(** C6 (amended).  When the [reps = ceil(L / 16)] copies of the [C]
    relative efficiencies cover the program ([L <= C * reps], which holds
    for the device's [C = 16] and for any [C >= 16]), the tiled array has
    exactly [L] entries and entry [t] is the efficiency of detector
    [t mod C]. *)
Theorem tile_etas_ch_rel_spec (etas_ch_rel : list A) C L :
  length etas_ch_rel = C ->
  L <= C * ceil_div L 16 ->
  length (tile_etas_ch_rel etas_ch_rel L) = L ∧
  ∀ t, t < L ->
    tile_etas_ch_rel etas_ch_rel L !! t = etas_ch_rel !! detector C t.
Proof.
  intros HC Hcover. unfold tile_etas_ch_rel, detector. split.
  - rewrite length_take, length_tile, HC. lia.
  - intros t Ht. rewrite lookup_take_lt by done.
    rewrite lookup_tile by (rewrite HC; lia). by rewrite HC.
Qed.
End LossFacts.

(** Scenario B: sixteen channels and a program of 259 time bins. *)
Lemma tile_etas_ch_rel_spec_witness :
  length (Loss.tile_etas_ch_rel (seq 100 16) 259) = 259 ∧
  Loss.tile_etas_ch_rel (seq 100 16) 259 !! 20 = seq 100 16 !! 4.
Proof.
  destruct (tile_etas_ch_rel_spec (seq 100 16) 16 259) as [Hlen Hat].
  - reflexivity.
  - vm_compute. lia.
  - split; [exact Hlen|]. apply (Hat 20). lia.
Defined.

(** C6 as stated fails for fewer than sixteen channels: eight efficiencies
    tiled for 259 time bins give 136 entries. *)
Lemma eight_channels_too_short :
  length (Loss.tile_etas_ch_rel (seq 100 8) 259) ≠ 259.
Proof. vm_compute. intros H; discriminate H. Qed.

(** *** Squeezing quantization *)

Section SqueezingFacts.
Import Squeezing.
Local Open Scope Q_scope.

Lemma Qlt_bool_iff a b : Qlt_bool a b = true ↔ a < b.
Proof.
  unfold Qlt_bool. rewrite negb_true_iff.
  destruct (Qle_bool b a) eqn:Hle.
  - apply Qle_bool_iff in Hle. split; [done|]. intros Hlt. lra.
  - split; [intros _|done].
    apply Qnot_le_lt. intros Hba. apply Qle_bool_iff in Hba. congruence.
Qed.

Lemma preferred_iff v s c :
  preferred v s c = true
  ↔ dist v s < dist v c ∨ (dist v s == dist v c ∧ s < c).
Proof.
  unfold preferred.
  rewrite orb_true_iff, andb_true_iff, !Qlt_bool_iff, Qeq_bool_iff. done.
Qed.

Lemma no_worse_refl v a : no_worse v a a.
Proof. right. split; [reflexivity|apply Qle_refl]. Qed.

Lemma no_worse_trans v a b c :
  no_worse v a b -> no_worse v b c -> no_worse v a c.
Proof.
  unfold no_worse. intros [Hab|[Hab Hab']] [Hbc|[Hbc Hbc']].
  - left. lra.
  - left. lra.
  - left. lra.
  - right. split; lra.
Qed.

(** One step of the scan keeps a value no worse than the candidate and
    than the value it looks at. *)
Lemma pick_no_worse v c s :
  no_worse v (pick v c s) c ∧ no_worse v (pick v c s) s ∧
  (pick v c s = c ∨ pick v c s = s).
Proof.
  unfold pick. destruct (preferred v s c) eqn:Hp.
  - apply preferred_iff in Hp. split; [|split; [apply no_worse_refl|auto]].
    unfold no_worse. destruct Hp as [Hp|[Hp Hp']]; [left; lra|right; split; lra].
  - split; [apply no_worse_refl|split; [|auto]].
    assert (Hn : ¬ (dist v s < dist v c ∨ (dist v s == dist v c ∧ s < c))).
    { rewrite <- preferred_iff. congruence. }
    unfold no_worse.
    destruct (Qlt_le_dec (dist v c) (dist v s)) as [Hlt|Hle]; [by left|].
    right. split.
    + apply Qle_antisym; [|done].
      apply Qnot_lt_le. intros Hlt. apply Hn. by left.
    + apply Qnot_lt_le. intros Hlt. apply Hn.
      destruct (Qlt_le_dec (dist v s) (dist v c)) as [Hlt'|Hle']; [by left|].
      right. split; [|done]. by apply Qle_antisym.
Qed.

Lemma fold_pick_no_worse v rest : ∀ c,
  no_worse v (fold_left (pick v) rest c) c ∧
  (∀ s, In s rest -> no_worse v (fold_left (pick v) rest c) s) ∧
  In (fold_left (pick v) rest c) (c :: rest).
Proof.
  induction rest as [|s0 rest IH]; intros c; simpl.
  { split; [apply no_worse_refl|]. split; [tauto|auto]. }
  destruct (IH (pick v c s0)) as (Hc & Hrest & Hin).
  destruct (pick_no_worse v c s0) as (Hpc & Hps & Hpin).
  split; [by eapply no_worse_trans|]. split.
  - intros s [<-|Hs]; [by eapply no_worse_trans|by apply Hrest].
  - destruct Hin as [Hin|Hin]; [|by auto].
    rewrite <- Hin. destruct Hpin as [->| ->]; auto.
Qed.

Lemma dist_self v : dist v v == 0.
Proof.
  unfold dist. assert (H : v - v == 0) by ring. rewrite H. reflexivity.
Qed.

Lemma dist_zero v q : dist v q <= 0 -> q == v.
Proof.
  unfold dist. intros H.
  pose proof (Qle_Qabs (q - v)) as H1.
  pose proof (Qle_Qabs (- (q - v))) as H2.
  rewrite Qabs_opp in H2. lra.
Qed.

(** C7.  With at least one supported value, quantization answers with
    a supported value that no supported value is nearer to the request
    than; of the supported values as near as the answer, none is lower; a
    request that is itself supported is answered with its own value. *)
Theorem quantize_nearest (supported : list Q) (v : Q) :
  supported ≠ [] ->
  ∃ q, quantize supported v = Some q ∧
       In q supported ∧
       (∀ s, In s supported -> Qabs (q - v) <= Qabs (s - v)) ∧
       (∀ s, In s supported -> Qabs (s - v) == Qabs (q - v) -> q <= s) ∧
       (In v supported -> q == v).
Proof.
  intros Hne. destruct supported as [|s0 rest]; [done|].
  destruct (fold_pick_no_worse v rest s0) as (H0 & Hrest & Hin).
  assert (Hall : ∀ s, In s (s0 :: rest) ->
                   no_worse v (fold_left (pick v) rest s0) s).
  { intros s [<-|Hs]; auto. }
  exists (fold_left (pick v) rest s0). split; [reflexivity|].
  split; [exact Hin|]. split; [|split].
  - intros s Hs. destruct (Hall s Hs) as [Hlt|[Heq _]]; unfold dist in *; lra.
  - intros s Hs Heq. destruct (Hall s Hs) as [Hlt|[_ Hle]]; unfold dist in *; lra.
  - intros Hv. apply dist_zero.
    pose proof (dist_self v).
    destruct (Hall v Hv) as [Hlt|[Heq _]]; lra.
Qed.
End SqueezingFacts.

(** Scenario C: 0.95 against the supported values 0.0, 0.8, 1.0 and
    1.234. *)
Lemma quantize_nearest_witness :
  Squeezing.quantize [0; 8 # 10; 1; 1234 # 1000]%Q (95 # 100)%Q = Some 1%Q.
Proof.
  destruct (quantize_nearest [0; 8 # 10; 1; 1234 # 1000]%Q (95 # 100)%Q)
    as (q & Hq & _).
  - discriminate.
  - rewrite Hq. vm_compute in Hq. injection Hq as <-. reflexivity.
Defined.

(** *** The transfer matrix *)

Section TransferFacts.
Context {K : Type} (zero one : K) (add mul : K → K → K).
Import Transfer.

Lemma has_shape_build rows cols (f : nat → nat → K) :
  has_shape rows cols (build rows cols f).
Proof.
  unfold has_shape, build. split.
  - by rewrite length_fmap, length_seq.
  - apply Forall_fmap, Forall_true. intros i. simpl.
    by rewrite length_fmap, length_seq.
Qed.

Lemma has_shape_embed L o (e : matrix K) :
  embed zero one L o = Some e -> has_shape L L e.
Proof.
  destruct o; simpl; intros He; simplify_eq; apply has_shape_build.
Qed.

Lemma embed_passive L o : is_passive o = true -> is_Some (embed zero one L o).
Proof. destruct o; simpl; intros Ho; by eauto. Qed.

Lemma extract_from_passive L ops : ∀ acc : matrix K,
  Forall (λ o, is_passive o = true) ops ->
  ∃ T, extract_from zero one add mul L acc ops = Some T ∧
       (has_shape L L acc -> has_shape L L T).
Proof.
  induction ops as [|o ops IH]; intros acc Hops; simpl.
  { by exists acc. }
  inversion_clear Hops as [|? ? Ho Hops'].
  destruct (embed_passive L o Ho) as [e ->].
  destruct (IH (mmul zero add mul L e acc) Hops') as (T & HT & Hshape).
  exists T. split; [done|]. intros _. apply Hshape, has_shape_build.
Qed.

Lemma extract_from_squeezing L ops : ∀ acc : matrix K,
  Exists (λ o, is_squeezing o = true) ops ->
  extract_from zero one add mul L acc ops = None.
Proof.
  induction ops as [|o ops IH]; intros acc Hex; simpl.
  { inversion Hex. }
  destruct (embed zero one L o) as [e|] eqn:He; [|done].
  apply IH. inversion_clear Hex as [? ? Ho|]; [|done].
  destruct o; simpl in *; done.
Qed.

Lemma length_slice lo hi (l : list K) :
  length (slice lo hi l) = hi `min` length l - lo.
Proof. unfold slice. by rewrite length_drop, length_take. Qed.

Lemma has_shape_slice2 vac M (m : matrix K) :
  has_shape (vac + M) (vac + M) m ->
  has_shape M M (slice2 vac (vac + M) m).
Proof.
  intros [Hrows Hcols]. unfold slice2. split.
  - rewrite length_fmap, length_drop, length_take. lia.
  - apply Forall_fmap, Forall_drop, Forall_take.
    eapply Forall_impl; [exact Hcols|].
    intros row Hrow. simpl in *. rewrite length_slice. lia.
Qed.

Lemma entry_slice2 vac M (m : matrix K) i j :
  i < M -> j < M ->
  entry (slice2 vac (vac + M) m) i j = entry m (vac + i) (vac + j).
Proof.
  intros Hi Hj. unfold entry, slice2.
  rewrite list_lookup_fmap, lookup_drop, lookup_take_lt by lia.
  destruct (m !! (vac + i)) as [row|]; simpl; [|done].
  unfold slice. rewrite lookup_drop, lookup_take_lt by lia. done.
Qed.

Local Abbreviation laws := (Action.semiring_laws zero one add mul).
Local Abbreviation sum_over := (Action.sum_over zero add).
Local Abbreviation vget := (Action.vget zero).
Local Abbreviation mat_vec := (Action.mat_vec zero add mul).
Local Abbreviation coeff := (Transfer.coeff zero).
Local Abbreviation act := (Action.act zero add mul).

Lemma coeff_build rows cols (f : nat → nat → K) i j :
  i < rows -> j < cols -> coeff (build rows cols f) i j = f i j.
Proof.
  intros Hi Hj. unfold Transfer.coeff, entry, build.
  rewrite list_lookup_fmap, lookup_seq_lt by done. simpl.
  by rewrite list_lookup_fmap, lookup_seq_lt by done.
Qed.

Lemma entry_coeff rows cols (m : matrix K) i j :
  has_shape rows cols m -> i < rows -> j < cols ->
  entry m i j = Some (coeff m i j).
Proof.
  intros [Hrows Hcols] Hi Hj. unfold Transfer.coeff, entry.
  destruct (lookup_lt_is_Some_2 m i ltac:(lia)) as [row Hrow].
  rewrite Hrow. simpl.
  pose proof (Forall_lookup_1 _ _ _ _ Hcols Hrow) as Hlen. simpl in Hlen.
  destruct (lookup_lt_is_Some_2 row j ltac:(lia)) as [x Hx].
  by rewrite Hx.
Qed.

Lemma sum_over_cons a l (f : nat → K) :
  sum_over (a :: l) f = add (f a) (sum_over l f).
Proof. reflexivity. Qed.

Lemma sum_over_ext l (f g : nat → K) :
  (∀ j, j ∈ l -> f j = g j) -> sum_over l f = sum_over l g.
Proof.
  induction l as [|a l IH]; intros Hfg; [done|].
  rewrite !sum_over_cons, Hfg by apply list_elem_of_here. f_equal.
  apply IH. intros j Hj. by apply Hfg, list_elem_of_further.
Qed.

Lemma sum_over_zero (HK : laws) l (f : nat → K) :
  (∀ j, j ∈ l -> f j = zero) -> sum_over l f = zero.
Proof.
  induction l as [|a l IH]; intros Hf; [done|].
  rewrite sum_over_cons, Hf by apply list_elem_of_here.
  rewrite (Action.add_0_l _ _ _ _ HK).
  apply IH. intros j Hj. by apply Hf, list_elem_of_further.
Qed.

Lemma add_shuffle (HK : laws) a b c d :
  add (add a b) (add c d) = add (add a c) (add b d).
Proof.
  rewrite <- (Action.add_assoc _ _ _ _ HK a b (add c d)).
  rewrite (Action.add_assoc _ _ _ _ HK b c d).
  rewrite (Action.add_comm _ _ _ _ HK b c).
  rewrite <- (Action.add_assoc _ _ _ _ HK c b d).
  by rewrite (Action.add_assoc _ _ _ _ HK a c (add b d)).
Qed.

Lemma sum_over_add (HK : laws) l (f g : nat → K) :
  sum_over l (λ j, add (f j) (g j)) = add (sum_over l f) (sum_over l g).
Proof.
  induction l as [|a l IH].
  - symmetry. apply (Action.add_0_l _ _ _ _ HK).
  - rewrite !sum_over_cons, IH. by apply add_shuffle.
Qed.

Lemma sum_over_mul_l (HK : laws) c l (f : nat → K) :
  mul c (sum_over l f) = sum_over l (λ j, mul c (f j)).
Proof.
  induction l as [|a l IH].
  - apply (Action.mul_0_r _ _ _ _ HK).
  - by rewrite !sum_over_cons, (Action.mul_add_l _ _ _ _ HK), IH.
Qed.

Lemma sum_over_mul_r (HK : laws) c l (f : nat → K) :
  mul (sum_over l f) c = sum_over l (λ j, mul (f j) c).
Proof.
  induction l as [|a l IH].
  - apply (Action.mul_0_l _ _ _ _ HK).
  - by rewrite !sum_over_cons, (Action.mul_add_r _ _ _ _ HK), IH.
Qed.

Lemma sum_over_exchange (HK : laws) l1 l2 (f : nat → nat → K) :
  sum_over l1 (λ i, sum_over l2 (f i))
  = sum_over l2 (λ j, sum_over l1 (λ i, f i j)).
Proof.
  induction l1 as [|a l1 IH].
  - symmetry. by apply sum_over_zero.
  - rewrite sum_over_cons, IH, <- (sum_over_add HK).
    apply sum_over_ext. intros j _. by rewrite sum_over_cons.
Qed.

(** A sum with a single term that is not zero. *)
Lemma sum_over_delta (HK : laws) L : ∀ s i (f : nat → K),
  s <= i < s + L ->
  (∀ j, s <= j < s + L -> j ≠ i -> f j = zero) ->
  sum_over (seq s L) f = f i.
Proof.
  induction L as [|L IH]; intros s i f Hi Hf; [lia|].
  cbn [seq]. rewrite sum_over_cons.
  destruct (decide (s = i)) as [->|Hne].
  - rewrite sum_over_zero; [|done|].
    + rewrite (Action.add_comm _ _ _ _ HK). apply (Action.add_0_l _ _ _ _ HK).
    + intros j Hj. apply list_elem_of_In, in_seq in Hj. apply Hf; lia.
  - rewrite (Hf s) by lia. rewrite (Action.add_0_l _ _ _ _ HK).
    apply IH; [lia|]. intros j Hj. apply Hf. lia.
Qed.

(** A sum with two terms that are not zero. *)
Lemma sum_over_two (HK : laws) L : ∀ s a b (f : nat → K),
  a ≠ b -> s <= a < s + L -> s <= b < s + L ->
  (∀ j, s <= j < s + L -> j ≠ a -> j ≠ b -> f j = zero) ->
  sum_over (seq s L) f = add (f a) (f b).
Proof.
  induction L as [|L IH]; intros s a b f Hab Ha Hb Hf; [lia|].
  cbn [seq]. rewrite sum_over_cons.
  destruct (decide (s = a)) as [->|Hsa]; [|destruct (decide (s = b)) as [->|Hsb]].
  - f_equal. apply (sum_over_delta HK); [lia|].
    intros j Hj Hjb. apply Hf; lia.
  - rewrite (Action.add_comm _ _ _ _ HK (f a)). f_equal.
    apply (sum_over_delta HK); [lia|].
    intros j Hj Hja. apply Hf; lia.
  - rewrite (Hf s) by lia. rewrite (Action.add_0_l _ _ _ _ HK).
    apply IH; [done|lia|lia|]. intros j Hj. apply Hf. lia.
Qed.

Lemma length_mat_vec L (m : matrix K) v : length (mat_vec L m v) = L.
Proof. unfold Action.mat_vec. by rewrite length_fmap, length_seq. Qed.

Lemma lookup_mat_vec L (m : matrix K) v i :
  i < L ->
  mat_vec L m v !! i
  = Some (sum_over (seq 0 L) (λ j, mul (coeff m i j) (vget v j))).
Proof.
  intros Hi. unfold Action.mat_vec.
  by rewrite list_lookup_fmap, lookup_seq_lt by done.
Qed.

Lemma vget_lookup (v : list K) i x : v !! i = Some x -> vget v i = x.
Proof. unfold Action.vget. by intros ->. Qed.

(** The row [i] of a built matrix applied to a vector. *)
Lemma row_build L (f : nat → nat → K) (g : nat → K) i :
  i < L ->
  sum_over (seq 0 L) (λ j, mul (coeff (build L L f) i j) (g j))
  = sum_over (seq 0 L) (λ j, mul (f i j) (g j)).
Proof.
  intros Hi. apply sum_over_ext. intros j Hj.
  apply list_elem_of_In, in_seq in Hj. by rewrite coeff_build by lia.
Qed.

Lemma mat_vec_identity (HK : laws) L v :
  length v = L -> mat_vec L (identity zero one L) v = v.
Proof.
  intros Hlen. apply list_eq. intros i.
  destruct (decide (i < L)) as [Hi|Hi].
  - rewrite lookup_mat_vec by done. unfold identity. rewrite row_build by done.
    rewrite (sum_over_delta HK L 0 i); [|lia|].
    2:{ intros j Hj Hji. rewrite decide_False by lia.
        apply (Action.mul_0_l _ _ _ _ HK). }
    rewrite decide_True by done. rewrite (Action.mul_1_l _ _ _ _ HK).
    destruct (lookup_lt_is_Some_2 v i ltac:(lia)) as [x Hx].
    by rewrite (vget_lookup v i x Hx).
  - rewrite (lookup_ge_None_2 v) by lia.
    apply lookup_ge_None_2. rewrite length_mat_vec. lia.
Qed.

(** Multiplying from the left is applying afterwards. *)
Lemma mat_vec_mmul (HK : laws) L (e t : matrix K) v :
  mat_vec L (mmul zero add mul L e t) v = mat_vec L e (mat_vec L t v).
Proof.
  unfold Action.mat_vec at 1 2. apply list_fmap_ext. intros i' i Hi.
  apply lookup_seq in Hi as [Heq Hi]. simpl in Heq. subst i'.
  unfold mmul. rewrite row_build by done.
  change (sum_over (seq 0 L)
            (λ j, mul (sum_over (seq 0 L)
                         (λ k, mul (coeff e i k) (coeff t k j))) (vget v j))
          = sum_over (seq 0 L)
              (λ k, mul (coeff e i k) (vget (mat_vec L t v) k))).
  rewrite (sum_over_ext _ _
             (λ j, sum_over (seq 0 L)
                     (λ k, mul (mul (coeff e i k) (coeff t k j)) (vget v j))))
    by (intros j _; apply (sum_over_mul_r HK)).
  rewrite (sum_over_exchange HK).
  apply sum_over_ext. intros k Hk. apply list_elem_of_In, in_seq in Hk.
  rewrite (vget_lookup _ _ _ (lookup_mat_vec L t v k ltac:(lia))).
  rewrite (sum_over_mul_l HK). apply sum_over_ext. intros j _.
  symmetry. apply (Action.mul_assoc _ _ _ _ HK).
Qed.

Ltac decide_all :=
  repeat first [rewrite decide_True by lia | rewrite decide_False by lia];
  cbn match.

Lemma mat_vec_embed1 (HK : laws) L q u v :
  length v = L ->
  mat_vec L (embed1 zero one L q u) v = <[q := mul u (vget v q)]> v.
Proof.
  intros Hlen. apply list_eq. intros i.
  destruct (decide (i < L)) as [Hi|Hi].
  - rewrite lookup_mat_vec by done. unfold embed1. rewrite row_build by done.
    rewrite (sum_over_delta HK L 0 i); [|lia|].
    + destruct (decide (i = q)) as [->|Hiq].
      * decide_all. by rewrite list_lookup_insert_eq by lia.
      * decide_all. rewrite (Action.mul_1_l _ _ _ _ HK).
        rewrite list_lookup_insert_ne by done.
        destruct (lookup_lt_is_Some_2 v i ltac:(lia)) as [x Hx].
        by rewrite (vget_lookup v i x Hx).
    + intros j Hj Hji. decide_all. apply (Action.mul_0_l _ _ _ _ HK).
  - rewrite lookup_ge_None_2 by (rewrite length_mat_vec; lia).
    symmetry. apply lookup_ge_None_2. rewrite length_insert. lia.
Qed.

Lemma mat_vec_embed2 (HK : laws) L q1 q2 u11 u12 u21 u22 v :
  length v = L -> q1 < L -> q2 < L -> q1 ≠ q2 ->
  mat_vec L (embed2 zero one L q1 q2 u11 u12 u21 u22) v
  = <[q2 := add (mul u21 (vget v q1)) (mul u22 (vget v q2))]>
      (<[q1 := add (mul u11 (vget v q1)) (mul u12 (vget v q2))]> v).
Proof.
  intros Hlen H1 H2 Hne. apply list_eq. intros i.
  destruct (decide (i < L)) as [Hi|Hi].
  - rewrite lookup_mat_vec by done. unfold embed2. rewrite row_build by done.
    destruct (decide (i = q2)) as [->|Hi2];
      [|destruct (decide (i = q1)) as [->|Hi1]].
    + rewrite list_lookup_insert_eq by (rewrite length_insert; lia).
      rewrite (sum_over_two HK L 0 q1 q2); [|done|lia|lia|].
      * by decide_all.
      * intros j Hj Hj1 Hj2. decide_all. apply (Action.mul_0_l _ _ _ _ HK).
    + rewrite list_lookup_insert_ne by done.
      rewrite list_lookup_insert_eq by lia.
      rewrite (sum_over_two HK L 0 q1 q2); [|done|lia|lia|].
      * by decide_all.
      * intros j Hj Hj1 Hj2. decide_all. apply (Action.mul_0_l _ _ _ _ HK).
    + rewrite !list_lookup_insert_ne by done.
      rewrite (sum_over_delta HK L 0 i); [|lia|].
      * decide_all. rewrite (Action.mul_1_l _ _ _ _ HK).
        destruct (lookup_lt_is_Some_2 v i ltac:(lia)) as [x Hx].
        by rewrite (vget_lookup v i x Hx).
      * intros j Hj Hji. decide_all. apply (Action.mul_0_l _ _ _ _ HK).
  - rewrite lookup_ge_None_2 by (rewrite length_mat_vec; lia).
    symmetry. apply lookup_ge_None_2. rewrite !length_insert. lia.
Qed.

(** Every passive, well-formed operation acts as its embedded operator. *)
Lemma apply_op_embed (HK : laws) L o v :
  is_passive o = true -> Action.well_formed L o = true -> length v = L ->
  ∃ e, embed zero one L o = Some e ∧
       Action.apply_op zero add mul o v = Some (mat_vec L e v).
Proof.
  intros Hp Hwf Hlen. destruct o as [q u|q1 q2 u11 u12 u21 u22|q t|q|q];
    simpl in *; try done.
  - eexists. split; [done|]. by rewrite (mat_vec_embed1 HK).
  - apply andb_true_iff in Hwf as [Hwf Hne].
    apply andb_true_iff in Hwf as [H1 H2].
    apply bool_decide_eq_true in H1, H2, Hne.
    eexists. split; [done|]. by rewrite (mat_vec_embed2 HK).
  - eexists. split; [done|]. by rewrite (mat_vec_embed1 HK).
Qed.

Lemma act_extract_from (HK : laws) L ops : ∀ (acc T : matrix K) v,
  Forall (λ o, is_passive o = true ∧ Action.well_formed L o = true) ops ->
  extract_from zero one add mul L acc ops = Some T ->
  length v = L ->
  act ops (mat_vec L acc v) = Some (mat_vec L T v).
Proof.
  induction ops as [|o ops IH]; intros acc T v Hops HT Hlen; simpl in *.
  { by injection HT as ->. }
  inversion_clear Hops as [|? ? [Hp Hwf] Hops'].
  destruct (apply_op_embed HK L o (mat_vec L acc v) Hp Hwf
              (length_mat_vec L acc v)) as (e & He & Happly).
  rewrite He in HT. rewrite Happly, <- (mat_vec_mmul HK).
  by apply IH.
Qed.

Lemma lookup_basis L j k :
  k < L -> Action.basis zero one L j !! k
           = Some (if decide (k = j) then one else zero).
Proof.
  intros Hk. unfold Action.basis.
  by rewrite list_lookup_fmap, lookup_seq_lt by done.
Qed.

(** A matrix applied to the basis vector [j] is its column [j]. *)
Lemma mat_vec_basis (HK : laws) L (m : matrix K) i j :
  i < L -> j < L ->
  mat_vec L m (Action.basis zero one L j) !! i = Some (coeff m i j).
Proof.
  intros Hi Hj. rewrite lookup_mat_vec by done. f_equal.
  rewrite (sum_over_delta HK L 0 j); [|lia|].
  - rewrite (vget_lookup _ _ _ (lookup_basis L j j Hj)).
    rewrite decide_True by done. apply (Action.mul_1_r _ _ _ _ HK).
  - intros k Hk Hkj.
    rewrite (vget_lookup _ _ _ (lookup_basis L j k ltac:(lia))).
    rewrite decide_False by done. apply (Action.mul_0_r _ _ _ _ HK).
Qed.

(** C9.  Over [L = vac_modes + M] registers and coefficients that obey
    the semiring laws: a circuit holding a squeezing operation has no
    transfer matrix.  A circuit of rotations, beamsplitters and losses
    has one, [T], and [T] is the composed
    passive action: it is [L] by [L]; applied to any column vector over
    the registers it gives what the operations give when they are
    applied one after the other in chronological order; its entry
    [(i, j)] is the amplitude that the operations leave in register [i]
    when they start from amplitude one in register [j] alone (both for
    operations that name registers of the circuit).  Cropping the
    [vac_modes] leading rows and columns leaves the [M] by [M] block
    whose entry [(i, j)] is entry [(vac_modes + i, vac_modes + j)] of
    [T]. *)
Theorem transfer_matrix_spec vac_modes M (ops : list (operation (K:=K))) :
  Action.semiring_laws zero one add mul ->
  (Exists (λ o, is_squeezing o = true) ops ->
   extract zero one add mul (vac_modes + M) ops = None) ∧
  (Forall (λ o, is_passive o = true) ops ->
   ∃ T, extract zero one add mul (vac_modes + M) ops = Some T ∧
        has_shape (vac_modes + M) (vac_modes + M) T ∧
        has_shape M M (transfer_matrix vac_modes (vac_modes + M) T) ∧
        (∀ i j, i < M -> j < M ->
           entry (transfer_matrix vac_modes (vac_modes + M) T) i j
           = entry T (vac_modes + i) (vac_modes + j)) ∧
        (Forall (λ o, Action.well_formed (vac_modes + M) o = true) ops ->
         (∀ v, length v = vac_modes + M ->
            Action.act zero add mul ops v
            = Some (Action.mat_vec zero add mul (vac_modes + M) T v)) ∧
         (∀ i j, i < vac_modes + M -> j < vac_modes + M ->
            ∃ col, Action.act zero add mul ops
                     (Action.basis zero one (vac_modes + M) j) = Some col ∧
                   col !! i = entry T i j))).
Proof.
  intros HK. split.
  - apply extract_from_squeezing.
  - intros Hops. set (L := vac_modes + M) in *.
    destruct (extract_from_passive L ops (identity zero one L) Hops)
      as (T & HT & Hshape).
    specialize (Hshape (has_shape_build _ _ _)).
    exists T. split; [exact HT|]. split; [exact Hshape|].
    split; [by apply has_shape_slice2|].
    split; [intros i j; apply entry_slice2|].
    intros Hwf.
    assert (Hact : ∀ v, length v = L -> act ops v = Some (mat_vec L T v)).
    { intros v Hv.
      rewrite <- (mat_vec_identity HK L v Hv) at 1.
      apply (act_extract_from HK); [|done|done].
      apply Forall_forall. intros o Ho.
      rewrite Forall_forall in Hops, Hwf. split; [by apply Hops|by apply Hwf]. }
    split; [exact Hact|].
    intros i j Hi Hj. eexists. split.
    + apply Hact. unfold Action.basis. by rewrite length_fmap, length_seq.
    + rewrite (mat_vec_basis HK) by done.
      symmetry. by apply (entry_coeff L L).
Qed.
End TransferFacts.

(** The semiring laws hold for the integers. *)
Lemma Z_semiring_laws : Action.semiring_laws 0%Z 1%Z Z.add Z.mul.
Proof. constructor; intros; lia. Qed.

(** The sizes of the advanced tutorial: 259 registers, 43 of them vacuum
    modes; a loss, a rotation and a beamsplitter on the first two
    computational registers. *)
Lemma transfer_matrix_spec_witness :
  Transfer.extract 0%Z 1%Z Z.add Z.mul 259
    [Transfer.Loss 43 2; Transfer.Squeezing 43;
     Transfer.Beamsplitter 43 44 1 1 1 (-1)]%Z
  = None ∧
  ∃ T, Transfer.extract 0%Z 1%Z Z.add Z.mul 259
         [Transfer.Loss 43 2; Transfer.Rotation 43 (-1);
          Transfer.Beamsplitter 43 44 1 1 1 (-1)]%Z
       = Some T ∧
       Transfer.has_shape 259 259 T ∧
       Transfer.has_shape 216 216 (Transfer.transfer_matrix 43 259 T) ∧
       Transfer.entry (Transfer.transfer_matrix 43 259 T) 0 0 = Some (-2)%Z ∧
       Transfer.entry (Transfer.transfer_matrix 43 259 T) 1 0 = Some (-2)%Z ∧
       Transfer.entry (Transfer.transfer_matrix 43 259 T) 1 1 = Some (-1)%Z.
Proof.
  split.
  - apply (proj1 (transfer_matrix_spec 0%Z 1%Z Z.add Z.mul 43 216 _
                    Z_semiring_laws)).
    right. left. reflexivity.
  - destruct (proj2 (transfer_matrix_spec 0%Z 1%Z Z.add Z.mul 43 216
               [Transfer.Loss 43 2; Transfer.Rotation 43 (-1);
                Transfer.Beamsplitter 43 44 1 1 1 (-1)]%Z Z_semiring_laws))
      as (T & HT & Hfull & Hcrop & Hat & Haction).
    + repeat constructor.
    + destruct Haction as [_ Hcol]; [repeat constructor|].
      exists T. split; [exact HT|]. split; [exact Hfull|].
      split; [exact Hcrop|].
      destruct (Hcol 43 43) as (c0 & Hc0 & Hc00); [lia|lia|].
      destruct (Hcol 44 43) as (c0' & Hc0' & Hc10); [lia|lia|].
      destruct (Hcol 44 44) as (c1 & Hc1 & Hc11); [lia|lia|].
      rewrite !Hat by lia. cbn [Nat.add].
      rewrite <- Hc00, <- Hc10, <- Hc11.
      vm_compute in Hc0, Hc0', Hc1.
      injection Hc0 as <-. injection Hc0' as <-. injection Hc1 as <-.
      repeat split; reflexivity.
Defined.

(** *** The circuits *)

Section CircuitFacts.
Import Circuit.

Lemma elem_of_for_range len body (cmd : command) :
  cmd ∈ for_range len body ↔ ∃ i, i < len ∧ cmd ∈ body i.
Proof.
  unfold for_range. rewrite list_elem_of_In, in_flat_map. split.
  - intros (i & Hi & Hcmd). apply in_seq in Hi. exists i.
    split; [lia|by apply list_elem_of_In].
  - intros (i & Hi & Hcmd). exists i.
    split; [apply in_seq; lia|by apply list_elem_of_In].
Qed.

Ltac one_command :=
  match goal with
  | H : _ ∈ [] |- _ => by apply elem_of_nil in H
  | H : _ ∈ _ :: _ |- _ => apply elem_of_cons in H as [->|H]
  end.

Ltac this_command :=
  intros theta phi Hop; simpl in Hop; simplify_eq;
  (split; [reflexivity|eexists; split; [eassumption|reflexivity]]).

Lemma prog_fixed_phase len cmd : cmd ∈ prog len -> fixed_phase len cmd.
Proof.
  unfold prog. rewrite !elem_of_app, elem_of_for_range.
  intros [H|[(i & Hi & H)|H]]; repeat one_command; this_command.
Qed.

Lemma advanced_fixed_phase len cmd : cmd ∈ advanced len -> fixed_phase len cmd.
Proof.
  unfold advanced. rewrite !elem_of_app, elem_of_for_range.
  intros [H|[(i & Hi & H)|H]]; repeat one_command; this_command.
Qed.

Lemma prog_sim_fixed_phase len cmd : cmd ∈ prog_sim len -> fixed_phase len cmd.
Proof.
  unfold prog_sim. rewrite !elem_of_app, elem_of_for_range.
  intros [H|[(i & Hi & H)|H]]; repeat one_command; this_command.
Qed.

Lemma prog_passive_fixed_phase len cmd :
  cmd ∈ prog_passive len -> fixed_phase len cmd.
Proof.
  unfold prog_passive. rewrite !elem_of_app, elem_of_for_range.
  intros [H|[(i & Hi & H)|H]]; repeat one_command; this_command.
Qed.

(** C10.  In each of the circuits (quickstart, beginner, advanced, with
    and without loss), every beamsplitter has the constant [pi / 2] as
    its second argument; its first argument is the argument sequence
    [p[2 i + 2]] of the loop [i] it belongs to. *)
Theorem beamsplitter_phase_fixed len circuit cmd theta phi :
  circuit ∈ programs len ->
  cmd ∈ circuit ->
  op cmd = BSgate theta phi ->
  phi = pi_half ∧ ∃ i, i < len ∧ theta = p (2 * i + 2).
Proof.
  intros Hcircuit Hcmd. unfold programs in Hcircuit.
  repeat one_command.
  - by apply prog_fixed_phase.
  - by apply prog_fixed_phase.
  - by apply advanced_fixed_phase.
  - by apply prog_sim_fixed_phase.
  - by apply prog_passive_fixed_phase.
Qed.
End CircuitFacts.

(** The beamsplitter of the second loop in the realistic simulation. *)
Lemma beamsplitter_phase_fixed_witness :
  Circuit.pi_half = Circuit.pi_half ∧
  ∃ i, i < 3 ∧ Circuit.p 4 = Circuit.p (2 * i + 2).
Proof.
  apply (beamsplitter_phase_fixed 3 (Circuit.prog_sim 3)
           (Circuit.Cmd (Circuit.BSgate (Circuit.p 4) Circuit.pi_half)
              [Circuit.q_n 2; Circuit.q_n 1])).
  - unfold Circuit.programs. do 3 apply list_elem_of_further.
    apply list_elem_of_here.
  - vm_compute. do 7 apply list_elem_of_further. apply list_elem_of_here.
  - reflexivity.
Defined.

(** ** Part III: further properties of the notebooks' code *)

(** The lengths of the padded sequences, for use by other proofs. *)
Lemma padded_program_lengths_on_lists {A : Type} (zero : A) M delays
    (r : list A) loops :
  length r = M ->
  Forall (GateArgs.loop_of_length M) loops ->
  Forall (λ d, d <= M) delays ->
  Forall (λ s, length s = M + sum_list delays)
         (GateArgs.pad_gate_args zero delays r loops).
Proof.
  intros Hr Hloops Hdelays. unfold GateArgs.pad_gate_args. constructor.
  - rewrite length_drain. lia.
  - eapply Forall_impl; [by apply (pad_loops_lengths zero M)|].
    simpl. intros s Hs. lia.
Qed.

Section MorePaddingFacts.
Context {A : Type} (zero : A).
Import GateArgs.

Lemma length_fill_loop_max delay (alpha : list A) :
  length (fill_loop zero delay alpha) = delay `max` length alpha.
Proof.
  unfold fill_loop, Py.assign_prefix, Py.times.
  rewrite length_app, length_replicate, length_drop. lia.
Qed.

Lemma padded_Rgate_lookup : ∀ i delays before loops d lp,
  delays !! i = Some d -> loops !! i = Some lp ->
  pad_loops zero before delays loops !! (2 * i)
  = Some (pad_Rgate zero (before + sum_list (take i delays))
            (sum_list (drop i delays)) (Rgate lp)).
Proof.
  induction i as [|i IH]; intros [|d0 delays] before [|lp0 loops] d lp Hd Hl;
    simplify_eq/=.
  - by rewrite Nat.add_0_r.
  - replace (i + S (i + 0)) with (S (2 * i)) by lia. simpl.
    rewrite (IH delays (before + d0) loops d lp Hd Hl).
    by rewrite Nat.add_assoc.
Qed.

Lemma pad_Rgate_lookup before after (phi : list A) t :
  pad_Rgate zero before after phi !! t
  = if decide (t < before) then Some zero
    else if decide (t < before + length phi) then phi !! (t - before)
    else if decide (t < before + length phi + after) then Some zero
    else None.
Proof.
  unfold pad_Rgate, drain, await, Py.times.
  repeat case_decide.
  - rewrite <- app_assoc, lookup_app_l by (rewrite length_replicate; lia).
    by apply lookup_replicate_2.
  - rewrite lookup_app_l by (rewrite length_app, length_replicate; lia).
    rewrite lookup_app_r by (rewrite length_replicate; lia).
    by rewrite length_replicate.
  - rewrite lookup_app_r by (rewrite length_app, length_replicate; lia).
    apply lookup_replicate_2. rewrite length_app, length_replicate. lia.
  - apply lookup_ge_None.
    rewrite !length_app, !length_replicate. lia.
Qed.

(** X1.  The padded rotation sequence of loop [i] holds every rotation
    angle the user drew, unchanged and in order, [before] time bins later
    ([before] the total delay of the loops in front); the [before] bins
    ahead of them and the [after] bins behind them are idle, and there
    is nothing beyond.  No bound on the delays is needed. *)
Theorem padded_Rgate_layout delays loops i d lp :
  delays !! i = Some d ->
  loops !! i = Some lp ->
  let before := sum_list (take i delays) in
  let after := sum_list (drop i delays) in
  ∃ s : list A,
    Sequences.padded_Rgate zero delays loops i = Some s ∧
    length s = length (Rgate lp) + sum_list delays ∧
    (∀ t, t < before -> s !! t = Some zero) ∧
    (∀ t, t < length (Rgate lp) -> s !! (before + t) = Rgate lp !! t) ∧
    (∀ t, before + length (Rgate lp) <= t < length s -> s !! t = Some zero).
Proof.
  intros Hd Hlp before after.
  assert (Hsum : sum_list delays = before + after).
  { subst before after. rewrite <- (take_drop i delays) at 1.
    apply sum_list_with_app. }
  eexists. split; [|split; [|split; [|split]]].
  - unfold Sequences.padded_Rgate.
    exact (padded_Rgate_lookup i delays 0 loops d lp Hd Hlp).
  - rewrite length_pad_Rgate. simpl. fold before after. lia.
  - intros t Ht. rewrite pad_Rgate_lookup. simpl. fold before.
    by rewrite decide_True.
  - intros t Ht. rewrite pad_Rgate_lookup. simpl. fold before.
    rewrite decide_False, decide_True by lia. f_equal. lia.
  - intros t. rewrite length_pad_Rgate, pad_Rgate_lookup. simpl.
    fold before after. intros Ht.
    by rewrite decide_False, decide_False, decide_True by lia.
Qed.

(** X2.  The squeezing sequence of the advanced tutorial is [r0] on the
    first [modes] time bins and 0 on the [delay_0 + delay_1 + delay_2]
    bins that follow, whatever the other inputs. *)
Theorem squeezing_sequence_layout modes (r0 : A) d0 d1 d2
    (phi_0 phi_1 phi_2 alpha_0 alpha_1 alpha_2 : list A) :
  ∃ r, gate_args_list zero modes r0 d0 d1 d2
         phi_0 phi_1 phi_2 alpha_0 alpha_1 alpha_2 !! 0 = Some r ∧
       length r = modes + (d0 + d1 + d2) ∧
       (∀ t, t < modes -> r !! t = Some r0) ∧
       (∀ t, modes <= t < length r -> r !! t = Some zero).
Proof.
  eexists. split; [reflexivity|].
  unfold drain, Py.times.
  split; [|split].
  - by rewrite length_app, !length_replicate.
  - intros t Ht. rewrite lookup_app_l by (rewrite length_replicate; lia).
    by apply lookup_replicate_2.
  - intros t. rewrite length_app, !length_replicate. intros Ht.
    rewrite lookup_app_r by (rewrite length_replicate; lia).
    apply lookup_replicate_2. rewrite length_replicate. lia.
Qed.

(** X3.  With [modes] entries in each drawn list, the seven sequences of
    the advanced tutorial have one common length exactly when none of the
    three delays exceeds [modes]. *)
Theorem gate_args_list_equal_lengths_iff modes (r0 : A) d0 d1 d2
    (phi_0 phi_1 phi_2 alpha_0 alpha_1 alpha_2 : list A) :
  length phi_0 = modes -> length phi_1 = modes -> length phi_2 = modes ->
  length alpha_0 = modes -> length alpha_1 = modes -> length alpha_2 = modes ->
  (∃ L, Forall (λ s, length s = L)
          (gate_args_list zero modes r0 d0 d1 d2
             phi_0 phi_1 phi_2 alpha_0 alpha_1 alpha_2))
  ↔ d0 <= modes ∧ d1 <= modes ∧ d2 <= modes.
Proof.
  intros Hp0 Hp1 Hp2 Ha0 Ha1 Ha2. unfold gate_args_list. split.
  - intros (L & HL).
    repeat match goal with
           | H : Forall _ (_ :: _) |- _ =>
               apply Forall_cons in H as [? H]
           end.
    rewrite ?length_drain, ?length_await, ?length_fill_loop_max in *.
    unfold Py.times in *. rewrite ?length_replicate in *. lia.
  - intros (H0 & H1 & H2). exists (modes + (d0 + d1 + d2)).
    repeat constructor;
      rewrite ?length_drain, ?length_await, ?length_fill_loop_max;
      unfold Py.times; rewrite ?length_replicate; lia.
Qed.

(** X4.  A loop whose delay is at least the number of entries drawn for
    its beamsplitter stays at full transmission throughout: its padded
    beamsplitter sequence consists of the idle value only, and is
    [delay - M] entries longer than the sequences of the other gates. *)
Theorem long_delay_all_idle delays loops i d lp :
  delays !! i = Some d ->
  loops !! i = Some lp ->
  length (BSgate lp) <= d ->
  padded_BSgate zero delays loops i
  = Some (replicate (d + sum_list delays) zero).
Proof.
  intros Hd Hlp Hlen. unfold padded_BSgate.
  rewrite (padded_BSgate_lookup zero i delays 0 loops d lp Hd Hlp). f_equal.
  unfold pad_BSgate, drain, await, fill_loop, Py.assign_prefix, Py.times.
  rewrite drop_ge, app_nil_r by lia.
  rewrite <- !replicate_add. f_equal. simpl.
  assert (Hsum : sum_list delays
                 = sum_list (take i delays) + sum_list (drop i delays)).
  { rewrite <- (take_drop i delays) at 1. apply sum_list_with_app. }
  lia.
Qed.

(** X5.  From the loop's delay on, the rotation angle and the
    beamsplitter angle the user drew for the same mode [t] are applied at
    the same time bin. *)
Theorem loop_gates_aligned delays loops i d lp t :
  delays !! i = Some d ->
  loops !! i = Some lp ->
  length (Rgate lp) = length (BSgate lp) ->
  d <= t < length (BSgate lp) ->
  ∃ phi alpha bin,
    Sequences.padded_Rgate zero delays loops i = Some phi ∧
    padded_BSgate zero delays loops i = Some alpha ∧
    phi !! bin = Rgate lp !! t ∧
    alpha !! bin = BSgate lp !! t ∧
    length phi = length alpha.
Proof.
  intros Hd Hlp Hlen Ht.
  eexists _, _, (sum_list (take i delays) + t).
  split; [exact (padded_Rgate_lookup i delays 0 loops d lp Hd Hlp)|].
  split; [by apply padded_BSgate_lookup|].
  split; [|split].
  - rewrite pad_Rgate_lookup. simpl.
    rewrite decide_False, decide_True by lia. f_equal. lia.
  - simpl. by apply pad_BSgate_user.
  - rewrite length_pad_Rgate, length_pad_BSgate by lia. lia.
Qed.

(** X6.  The beginner tutorial's fill on arrays keeps the length of the
    array whatever the delay, zeroes the entries below the delay and
    leaves the others alone; it is the advanced tutorial's fill on lists
    exactly when the delay does not exceed the length. *)
Theorem fill_on_arrays_and_lists delay (alpha : list A) :
  length (Beginner.fill_loop zero delay alpha) = length alpha ∧
  (∀ t, t < delay -> t < length alpha ->
     Beginner.fill_loop zero delay alpha !! t = Some zero) ∧
  (∀ t, delay <= t -> Beginner.fill_loop zero delay alpha !! t = alpha !! t) ∧
  (Beginner.fill_loop zero delay alpha = fill_loop zero delay alpha
   ↔ delay <= length alpha).
Proof.
  unfold Beginner.fill_loop, Np.assign_prefix.
  split; [|split; [|split]].
  - rewrite length_app, length_replicate, length_drop. lia.
  - intros t Ht Hlen. rewrite lookup_app_l by (rewrite length_replicate; lia).
    apply lookup_replicate_2. lia.
  - intros t Ht.
    destruct (decide (delay <= length alpha)) as [Hle|Hgt].
    + rewrite lookup_app_r by (rewrite length_replicate; lia).
      rewrite length_replicate, lookup_drop. f_equal. lia.
    + rewrite drop_ge, app_nil_r by lia.
      rewrite (lookup_ge_None_2 alpha) by lia.
      apply lookup_ge_None. rewrite length_replicate. lia.
  - split.
    + intros Heq. apply (f_equal length) in Heq.
      rewrite length_fill_loop_max in Heq.
      rewrite length_app, length_replicate, length_drop in Heq. lia.
    + intros Hle. unfold fill_loop, Py.assign_prefix, Py.times.
      by rewrite Nat.min_l.
Qed.
End MorePaddingFacts.

Section MoreLossFacts.
Context {A : Type}.
Import Loss.

Lemma tile_etas_ch_rel_length (etas_ch_rel : list A) L :
  length (tile_etas_ch_rel etas_ch_rel L)
  = L `min` (length etas_ch_rel * ceil_div L 16).
Proof.
  unfold tile_etas_ch_rel. rewrite length_take, length_tile. lia.
Qed.

Lemma tile_etas_ch_rel_lookup (etas_ch_rel : list A) L t :
  t < length (tile_etas_ch_rel etas_ch_rel L) ->
  tile_etas_ch_rel etas_ch_rel L !! t
  = etas_ch_rel !! (t mod length etas_ch_rel).
Proof.
  rewrite tile_etas_ch_rel_length. unfold tile_etas_ch_rel. intros Ht.
  rewrite lookup_take_lt by lia. apply lookup_tile. lia.
Qed.

(** X7.  Tiling [C] efficiencies for [L] time bins gives
    [min L (C * ceil (L / 16))] entries (none when there is no efficiency,
    fewer than [L] when fewer than sixteen efficiencies cannot cover the
    program), and entry [t] is always the efficiency [t mod C]. *)
Theorem tile_etas_ch_rel_exact (etas_ch_rel : list A) L :
  length (tile_etas_ch_rel etas_ch_rel L)
  = L `min` (length etas_ch_rel * ceil_div L 16) ∧
  ∀ t, t < length (tile_etas_ch_rel etas_ch_rel L) ->
    tile_etas_ch_rel etas_ch_rel L !! t
    = etas_ch_rel !! (t mod length etas_ch_rel).
Proof.
  split; [apply tile_etas_ch_rel_length|].
  intros t. apply tile_etas_ch_rel_lookup.
Qed.

(** X8.  The tiled efficiencies repeat with the period of the channel
    list (time bin [t + C] sees the efficiency of time bin [t]) and hold
    no value that is not one of the channel efficiencies. *)
Theorem tile_etas_ch_rel_periodic (etas_ch_rel : list A) L :
  (∀ t, t + length etas_ch_rel < length (tile_etas_ch_rel etas_ch_rel L) ->
     tile_etas_ch_rel etas_ch_rel L !! (t + length etas_ch_rel)
     = tile_etas_ch_rel etas_ch_rel L !! t) ∧
  (∀ eta, eta ∈ tile_etas_ch_rel etas_ch_rel L -> eta ∈ etas_ch_rel).
Proof.
  pose proof (tile_etas_ch_rel_lookup etas_ch_rel L) as Hat. split.
  - intros t Ht. rewrite !Hat by lia. f_equal.
    replace (t + length etas_ch_rel) with (t + 1 * length etas_ch_rel) by lia.
    apply Nat.Div0.mod_add.
  - intros eta Hin. apply list_elem_of_lookup in Hin as [t Ht].
    assert (Hlt : t < length (tile_etas_ch_rel etas_ch_rel L)).
    { by eapply lookup_lt_Some. }
    rewrite Hat in Ht by done. by eapply list_elem_of_lookup_2.
Qed.

(** X9.  Appending the channel efficiencies fails on an empty argument
    list.  On the seven padded sequences of the advanced tutorial, with
    at least sixteen efficiencies and no delay above [modes], it gives
    eight sequences of the common length [modes + delay_0 + delay_1 +
    delay_2]: the seven as they were, then the efficiencies, time bin
    [t] holding efficiency [t mod C]. *)
Theorem add_channel_efficiencies_spec (zero : A) modes r0 d0 d1 d2
    (phi_0 phi_1 phi_2 alpha_0 alpha_1 alpha_2 etas_ch_rel : list A) :
  Realistic.add_channel_efficiencies [] etas_ch_rel = None ∧
  (length phi_0 = modes -> length phi_1 = modes -> length phi_2 = modes ->
   length alpha_0 = modes -> length alpha_1 = modes -> length alpha_2 = modes ->
   d0 <= modes -> d1 <= modes -> d2 <= modes ->
   16 <= length etas_ch_rel ->
   ∃ args etas,
     Realistic.add_channel_efficiencies
       (GateArgs.gate_args_list zero modes r0 d0 d1 d2
          phi_0 phi_1 phi_2 alpha_0 alpha_1 alpha_2) etas_ch_rel
     = Some args ∧
     args = GateArgs.gate_args_list zero modes r0 d0 d1 d2
              phi_0 phi_1 phi_2 alpha_0 alpha_1 alpha_2 ++ [etas] ∧
     length args = 8 ∧
     Forall (λ s, length s = modes + (d0 + d1 + d2)) args ∧
     ∀ t, t < modes + (d0 + d1 + d2) ->
       etas !! t = etas_ch_rel !! (t mod length etas_ch_rel)).
Proof.
  split; [reflexivity|].
  intros Hp0 Hp1 Hp2 Ha0 Ha1 Ha2 H0 H1 H2 HC.
  set (L := modes + (d0 + d1 + d2)).
  assert (Hr : length (GateArgs.drain zero (d0 + d1 + d2) (Py.times r0 modes))
               = L).
  { rewrite length_drain. unfold Py.times. rewrite length_replicate. done. }
  assert (Hlen : length (tile_etas_ch_rel etas_ch_rel L) = L).
  { rewrite tile_etas_ch_rel_length.
    pose proof (sixteen_channels_cover (length etas_ch_rel) L HC). lia. }
  eexists _, _. split; [reflexivity|]. rewrite Hr.
  split; [reflexivity|]. split; [reflexivity|]. split.
  - apply Forall_app. split; [|by repeat constructor].
    rewrite gate_args_list_pad_gate_args.
    replace L with (modes + sum_list [d0; d1; d2]) by (simpl; lia).
    apply padded_program_lengths_on_lists.
    + unfold Py.times. by rewrite length_replicate.
    + repeat constructor; done.
    + repeat constructor; done.
  - intros t Ht. apply tile_etas_ch_rel_lookup. by rewrite Hlen.
Qed.
End MoreLossFacts.

Section LayoutFacts.
Import Circuit Layout.

Lemma args_used_app c1 c2 :
  args_used (c1 ++ c2) = args_used c1 ++ args_used c2.
Proof. unfold args_used. apply flat_map_app. Qed.

(** The argument indices of a loop body that uses [p[2 i + 1]] and then
    [p[2 i + 2]] in every round. *)
Lemma args_used_for_range len body :
  (∀ i, args_used (body i) = [2 * i + 1; 2 * i + 2]) ->
  args_used (for_range len body) = seq 1 (2 * len).
Proof.
  intros Hbody. unfold for_range.
  induction len as [|len IH]; [done|].
  rewrite seq_S, flat_map_app, args_used_app, IH.
  cbn [flat_map]. rewrite app_nil_r, Hbody.
  replace (2 * S len) with (2 * len + 2) by lia.
  rewrite (seq_app (2 * len) 2 1). cbn [seq Nat.add].
  do 2 f_equal; [lia|f_equal; lia].
Qed.

Lemma filter_for_range f len body body' :
  (∀ i, List.filter f (body i) = body' i) ->
  List.filter f (for_range len body) = for_range len body'.
Proof.
  intros Hbody. unfold for_range.
  induction (seq 0 len) as [|i l IH]; simpl; [done|].
  by rewrite List.filter_app, Hbody, IH.
Qed.

(** X10.  The circuits submitted to the device (quickstart, beginner and
    advanced) use the argument sequences [p[0], p[1], ..., p[2 len]] once
    each and in this order, the order of [gate_args_list]. *)
Theorem hardware_circuits_use_each_argument_once len :
  args_used (quickstart len) = seq 0 (2 * len + 1) ∧
  args_used (beginner len) = seq 0 (2 * len + 1) ∧
  args_used (advanced len) = seq 0 (2 * len + 1).
Proof.
  assert (Hseq : seq 0 (2 * len + 1) = 0 :: seq 1 (2 * len)).
  { by replace (2 * len + 1) with (S (2 * len)) by lia. }
  unfold quickstart, beginner, prog, advanced.
  rewrite !args_used_app, Hseq.
  rewrite !args_used_for_range by done.
  simpl. by rewrite app_nil_r.
Qed.

(** X11.  The simulated circuit uses [p[0] .. p[2 len]] in order and then
    [p[7]] for the channel loss, the passive circuit the same without
    [p[0]].  The loss argument [p[7]] is the sequence behind the gate
    arguments exactly for three loops; with more loops it is an argument
    of a loop gate as well. *)
Theorem simulated_circuits_arguments len :
  args_used (prog_sim len) = seq 0 (2 * len + 1) ++ [7] ∧
  args_used (prog_passive len) = seq 1 (2 * len) ++ [7] ∧
  (args_used (prog_sim len) = seq 0 (2 * len + 2) ↔ len = 3) ∧
  (NoDup (args_used (prog_sim len)) ↔ len <= 3).
Proof.
  assert (Hseq : seq 0 (2 * len + 1) = 0 :: seq 1 (2 * len)).
  { by replace (2 * len + 1) with (S (2 * len)) by lia. }
  assert (Hsim : args_used (prog_sim len) = seq 0 (2 * len + 1) ++ [7]).
  { unfold prog_sim. rewrite !args_used_app, Hseq.
    rewrite args_used_for_range by done. reflexivity. }
  split; [exact Hsim|]. split; [|split].
  - unfold prog_passive. rewrite !args_used_app.
    rewrite args_used_for_range by done. reflexivity.
  - rewrite Hsim.
    replace (2 * len + 2) with (S (2 * len + 1)) by lia. rewrite seq_S.
    split.
    + intros Heq. apply app_inj_tail in Heq as [_ Heq]. lia.
    + intros ->. reflexivity.
  - rewrite Hsim, NoDup_app. split.
    + intros (_ & Hdisj & _).
      destruct (decide (len <= 3)) as [|Hgt]; [done|].
      exfalso. apply (Hdisj 7); [|apply list_elem_of_here].
      apply list_elem_of_In, in_seq. lia.
    + intros Hle. split; [apply NoDup_seq|]. split; [|apply NoDup_singleton].
      intros k Hk Hk7. apply list_elem_of_singleton in Hk7 as ->.
      apply list_elem_of_In, in_seq in Hk. lia.
Qed.

(** X12.  The passive circuit is the simulated circuit without its
    squeezing gate and its measurement, and holds rotations,
    beamsplitters and loss channels only. *)
Theorem prog_passive_is_passive_part len :
  prog_passive len
  = List.filter (λ cmd, negb (is_Sgate cmd || is_measurement cmd))
      (prog_sim len) ∧
  forallb is_passive (prog_passive len) = true.
Proof.
  split.
  - unfold prog_sim, prog_passive.
    rewrite !List.filter_app.
    by erewrite filter_for_range by (intros i; reflexivity).
  - unfold prog_passive. rewrite !forallb_app. simpl.
    rewrite andb_true_r. unfold for_range.
    apply forallb_forall. intros cmd Hin.
    apply in_flat_map in Hin as (i & _ & Hin). simpl in Hin.
    destruct Hin as [<-|[<-|[<-|[<-|[]]]]]; reflexivity.
Qed.

(** X13.  Taking the loss channels out of the simulated circuit gives the
    advanced circuit that is submitted to the device, and taking the
    loop-phase rotations out of that gives the circuit of the beginner
    tutorial. *)
Theorem circuits_nest len :
  List.filter (λ cmd, negb (is_loss cmd)) (prog_sim len) = advanced len ∧
  List.filter (λ cmd, negb (is_loop_phase cmd)) (advanced len) = beginner len.
Proof.
  split.
  - unfold prog_sim, advanced. rewrite !List.filter_app.
    by erewrite filter_for_range by (intros i; reflexivity).
  - unfold advanced, beginner, prog. rewrite !List.filter_app.
    by erewrite filter_for_range by (intros i; reflexivity).
Qed.

Ltac layout_command :=
  match goal with
  | H : _ ∈ [] |- _ => by apply elem_of_nil in H
  | H : _ ∈ _ :: _ |- _ => apply elem_of_cons in H as [->|H]
  end.

Lemma registers_in_circuit len circuit cmd :
  circuit ∈ programs len -> cmd ∈ circuit -> registers_as_laid_out len cmd.
Proof.
  intros Hcircuit Hcmd. unfold programs in Hcircuit.
  repeat layout_command;
    unfold quickstart, beginner, prog, advanced, prog_sim, prog_passive in Hcmd;
    rewrite !elem_of_app, elem_of_for_range in Hcmd;
    destruct Hcmd as [H|[(i & Hi & H)|H]];
    repeat layout_command; unfold registers_as_laid_out; simpl;
    first [done | by exists i].
Qed.

(** X14.  In every circuit of [len] loops, rotation, loop phase and loss
    of loop [i] act on [q[n[i]]] and the beamsplitter of loop [i] on
    [(q[n[i + 1]], q[n[i]])]; the only other registers are [q[n[0]]] for
    the squeezer and the common loss and [q[0]] for the channel loss and
    the measurement.  Hence no gate names an index of [n] above [len]. *)
Theorem circuit_registers len circuit cmd :
  circuit ∈ programs len ->
  cmd ∈ circuit ->
  registers_as_laid_out len cmd ∧
  ∀ r, r ∈ regs cmd -> r = q 0 ∨ ∃ i, i <= len ∧ r = q_n i.
Proof.
  intros Hcircuit Hcmd.
  pose proof (registers_in_circuit len circuit cmd Hcircuit Hcmd) as Hlaid.
  split; [exact Hlaid|].
  intros r Hr. unfold registers_as_laid_out in Hlaid.
  destruct (op cmd) as [a|a|a b|a|]; try destruct a; try done;
    repeat match goal with
           | H : ∃ _, _ |- _ => destruct H as (? & ? & ? & H)
           | H : _ ∧ _ |- _ => destruct H as (? & H)
           end;
    rewrite Hlaid in Hr; repeat layout_command;
    first [by left | right; eexists; split; [|reflexivity]; lia].
Qed.
End LayoutFacts.

Section MoreCropFacts.
Context {A : Type}.

Lemma slice_from_twice a b (s : Crop.samples A) :
  Crop.slice_from a (Crop.slice_from b s) = Crop.slice_from (b + a) s.
Proof.
  unfold Crop.slice_from. rewrite <- list_fmap_compose.
  apply list_fmap_ext. intros _ shot _. simpl.
  rewrite <- list_fmap_compose.
  apply list_fmap_ext. intros _ row _. simpl. apply drop_drop.
Qed.

(** X15.  Slicing samples of shape [(shots, spatial, temporal)] with
    [[..., k:]] keeps shots and spatial modes, leaves [temporal - k]
    temporal modes (none when [k] reaches [temporal]) and moves entry
    [k + t] to [t]; slicing twice is slicing once by the sum. *)
Theorem slice_from_spec k shots spatial temporal (s : Crop.samples A) :
  Crop.has_shape shots spatial temporal s ->
  Crop.has_shape shots spatial (temporal - k) (Crop.slice_from k s) ∧
  (∀ shot sp t,
     Crop.sample_at (Crop.slice_from k s) shot sp t
     = Crop.sample_at s shot sp (k + t)) ∧
  (∀ k', Crop.slice_from k' (Crop.slice_from k s) = Crop.slice_from (k + k') s).
Proof.
  intros Hshape. split; [|split].
  - by apply has_shape_slice_from.
  - intros shot sp t. apply sample_at_slice_from.
  - intros k'. apply slice_from_twice.
Qed.

(** X16.  The three ways the advanced tutorial drops the vacuum modes
    agree on a row of [prog_length] entries: the slice
    [[vac_modes:prog_length]] of the transfer matrix and the slice
    [[vac_modes:]] of the samples are the same list, of
    [prog_length - vac_modes] entries, and its entry [j] is the row's
    entry at the [j]-th index of [range(vac_modes, prog_length)]. *)
Theorem vacuum_crops_agree vac_modes prog_length (row : list A) :
  length row = prog_length ->
  Transfer.slice vac_modes prog_length row = drop vac_modes row ∧
  length (drop vac_modes row) = prog_length - vac_modes ∧
  length (Builtins.range vac_modes prog_length) = prog_length - vac_modes ∧
  ∀ j i, Builtins.range vac_modes prog_length !! j = Some i ->
         is_Some (row !! i) ∧ drop vac_modes row !! j = row !! i.
Proof.
  intros Hlen. unfold Transfer.slice, Builtins.range.
  split; [|split; [|split]].
  - by rewrite take_ge by lia.
  - rewrite length_drop. lia.
  - apply length_seq.
  - intros j i Hj. apply lookup_seq in Hj as [-> Hj]. split.
    + apply lookup_lt_is_Some. lia.
    + apply lookup_drop.
Qed.

(** X17.  Cropping a matrix of any shape [rows x cols] with
    [[lo:hi, lo:hi]] clamps both bounds to the matrix: the result is
    [(min hi rows - lo) x (min hi cols - lo)], and inside it entry
    [(i, j)] is entry [(lo + i, lo + j)] of the matrix. *)
Theorem transfer_matrix_clamps lo hi rows cols (m : Transfer.matrix A) :
  Transfer.has_shape rows cols m ->
  Transfer.has_shape (hi `min` rows - lo) (hi `min` cols - lo)
    (Transfer.transfer_matrix lo hi m) ∧
  ∀ i j, lo + i < hi -> lo + j < hi ->
    Transfer.entry (Transfer.transfer_matrix lo hi m) i j
    = Transfer.entry m (lo + i) (lo + j).
Proof.
  intros [Hrows Hcols]. unfold Transfer.transfer_matrix, Transfer.slice2.
  split; [split|].
  - rewrite length_fmap, length_drop, length_take. lia.
  - apply Forall_fmap, Forall_drop, Forall_take.
    eapply Forall_impl; [exact Hcols|].
    intros row Hrow. simpl in *. rewrite length_slice. lia.
  - intros i j Hi Hj. unfold Transfer.entry.
    rewrite list_lookup_fmap, lookup_drop, lookup_take_lt by lia.
    destruct (m !! (lo + i)) as [row|]; simpl; [|done].
    unfold Transfer.slice. by rewrite lookup_drop, lookup_take_lt by lia.
Qed.
End MoreCropFacts.


Section MomentsFacts.
Context {K : Type} (zero : K) (sub : K → K → K).
Import Moments.

Lemma shape_square n (m : list (list K)) :
  Transfer.has_shape n n m -> shape m = (n, n).
Proof.
  intros [Hrows Hcols]. unfold shape. rewrite Hrows.
  destruct m as [|row m]; simpl in *; [by subst|].
  inversion_clear Hcols as [|? ? Hrow _]. simpl in Hrow. by rewrite Hrow.
Qed.

Lemma shape_rectangle r c (m : list (list K)) :
  Transfer.has_shape r c m -> 0 < r -> shape m = (r, c).
Proof.
  intros [Hrows Hcols] Hr. unfold shape. rewrite Hrows.
  destruct m as [|row m]; simpl in *; [lia|].
  inversion_clear Hcols as [|? ? Hrow _]. simpl in Hrow. by rewrite Hrow.
Qed.

Lemma shape_diag_matrix (v : list K) :
  shape (diag_matrix zero v) = (length v, length v).
Proof.
  destruct v as [|x v]; [done|].
  unfold shape, diag_matrix. simpl.
  by rewrite !length_fmap, !length_seq.
Qed.

Lemma at_diag_matrix (v : list K) i j :
  i < length v -> j < length v ->
  at_ zero (diag_matrix zero v) i j
  = if decide (i = j) then default zero (v !! i) else zero.
Proof.
  intros Hi Hj. unfold at_, diag_matrix.
  rewrite list_lookup_fmap, lookup_seq_lt by done. simpl.
  rewrite list_lookup_fmap, lookup_seq_lt by done. done.
Qed.

Lemma length_diag_of r c (m : list (list K)) :
  shape m = (r, c) -> length (diag_of zero m) = r `min` c.
Proof.
  intros Hs. unfold diag_of. rewrite Hs.
  by rewrite length_fmap, length_seq.
Qed.

Lemma lookup_diag_of r c (m : list (list K)) i :
  shape m = (r, c) -> i < r `min` c ->
  diag_of zero m !! i = Some (at_ zero m i i).
Proof.
  intros Hs Hi. unfold diag_of. rewrite Hs.
  by rewrite list_lookup_fmap, lookup_seq_lt.
Qed.

(** X18.  Removing the diagonal of a square array, with a subtraction
    for which [x - x = 0] and [x - 0 = x] (as for finite floats), gives
    an array of the same shape with 0 on the diagonal and every other
    entry as it was.  On an array that is not square and has at least
    two rows and two columns the statement raises. *)
Theorem remove_diagonal_spec (cov : list (list K)) :
  (∀ n, Transfer.has_shape n n cov ->
        (∀ x, sub x x = zero) -> (∀ x, sub x zero = x) ->
        ∃ cov', remove_diagonal zero sub cov = Some cov' ∧
                Transfer.has_shape n n cov' ∧
                ∀ i j x, Transfer.entry cov i j = Some x ->
                  Transfer.entry cov' i j
                  = Some (if decide (i = j) then zero else x)) ∧
  (∀ r c, Transfer.has_shape r c cov -> r ≠ c -> 2 <= r -> 2 <= c ->
          remove_diagonal zero sub cov = None).
Proof.
  split.
  - intros n Hshape Hxx Hx0.
    pose proof (shape_square n cov Hshape) as Hs.
    assert (Hd : length (diag_of zero cov) = n).
    { rewrite (length_diag_of n n) by done. lia. }
    unfold remove_diagonal, isub.
    rewrite Hs, shape_diag_matrix, Hd.
    unfold broadcasts. rewrite !bool_decide_eq_true_2 by done. simpl.
    eexists. split; [reflexivity|]. split.
    + destruct Hshape as [Hrows Hcols]. split.
      * by rewrite length_imap.
      * apply Forall_forall. intros row' Hin.
        apply list_elem_of_lookup in Hin as [i Hi].
        rewrite list_lookup_imap in Hi.
        destruct (cov !! i) as [row|] eqn:Hrow; simpl in Hi; [|done].
        injection Hi as <-. rewrite length_imap.
        eapply (Forall_lookup_1 _ _ _ _ Hcols Hrow).
    + intros i j x Hx. unfold Transfer.entry in *.
      rewrite list_lookup_imap.
      destruct (cov !! i) as [row|] eqn:Hrow; simpl in *; [|done].
      rewrite list_lookup_imap, Hx. simpl. f_equal.
      destruct Hshape as [Hrows Hcols].
      assert (Hi : i < n).
      { rewrite <- Hrows. by eapply lookup_lt_Some. }
      assert (Hj : j < n).
      { rewrite <- (Forall_lookup_1 _ _ _ _ Hcols Hrow).
        by eapply lookup_lt_Some. }
      assert (Hbi : (if bool_decide (n = 1) then 0 else i) = i).
      { case_bool_decide; lia. }
      assert (Hbj : (if bool_decide (n = 1) then 0 else j) = j).
      { case_bool_decide; lia. }
      rewrite Hbi, Hbj, at_diag_matrix by lia.
      destruct (decide (i = j)) as [<-|Hij]; [|apply Hx0].
      rewrite (lookup_diag_of n n) by (done || lia). simpl.
      unfold at_. rewrite Hrow. simpl. rewrite Hx. simpl. apply Hxx.
  - intros r c Hshape Hne Hr Hc.
    pose proof (shape_rectangle r c cov Hshape ltac:(lia)) as Hs.
    unfold remove_diagonal, isub.
    rewrite Hs, shape_diag_matrix, (length_diag_of r c) by done.
    unfold broadcasts.
    destruct (decide (r < c)).
    + rewrite (bool_decide_eq_false_2 (r `min` c = c)) by lia.
      rewrite (bool_decide_eq_false_2 (r `min` c = 1)) by lia.
      by rewrite andb_false_r.
    + rewrite (bool_decide_eq_false_2 (r `min` c = r)) by lia.
      rewrite (bool_decide_eq_false_2 (r `min` c = 1)) by lia.
      done.
Qed.
End MomentsFacts.


(** *** The further properties at inputs of the notebooks *)

(** The third loop of the advanced tutorial, with three modes more than
    its delay. *)
Lemma padded_Rgate_layout_witness :
  ∃ s : list Q,
    Sequences.padded_Rgate 0%Q [1; 6; 36]
      [GateArgs.LoopArgs (replicate 39 (1#4)%Q) (replicate 39 (7#8)%Q);
       GateArgs.LoopArgs (replicate 39 (1#3)%Q) (replicate 39 (7#8)%Q);
       GateArgs.LoopArgs (replicate 39 (1#2)%Q) (replicate 39 (7#8)%Q)] 2
    = Some s ∧
    length s = 82 ∧ s !! 6 = Some 0%Q ∧ s !! 7 = Some (1#2)%Q ∧
    s !! 45 = Some (1#2)%Q ∧ s !! 46 = Some 0%Q.
Proof.
  destruct (padded_Rgate_layout 0%Q [1; 6; 36]
              [GateArgs.LoopArgs (replicate 39 (1#4)%Q) (replicate 39 (7#8)%Q);
               GateArgs.LoopArgs (replicate 39 (1#3)%Q) (replicate 39 (7#8)%Q);
               GateArgs.LoopArgs (replicate 39 (1#2)%Q) (replicate 39 (7#8)%Q)]
              2 36 _ eq_refl eq_refl)
    as (s & Hs & Hlen & Hbefore & Huser & Hafter).
  exists s. split; [exact Hs|]. split; [exact Hlen|].
  split; [apply Hbefore; vm_compute; lia|].
  split; [apply (Huser 0); vm_compute; lia|].
  split; [apply (Huser 38); vm_compute; lia|].
  apply Hafter. rewrite Hlen. vm_compute. lia.
Defined.

(** 216 modes and the delays 1, 6 and 36: one common length. *)
Lemma gate_args_list_equal_lengths_iff_witness :
  ∃ L, Forall (λ s, length s = L)
         (GateArgs.gate_args_list 0%Q 216 1%Q 1 6 36
            (replicate 216 (1#4)%Q) (replicate 216 (1#4)%Q)
            (replicate 216 (1#4)%Q) (replicate 216 (7#8)%Q)
            (replicate 216 (7#8)%Q) (replicate 216 (7#8)%Q)).
Proof.
  apply (gate_args_list_equal_lengths_iff 0%Q 216 1%Q 1 6 36);
    try (vm_compute; reflexivity).
  repeat split; lia.
Defined.

(** Twenty modes and the delay 36 of the third loop. *)
Lemma long_delay_all_idle_witness :
  GateArgs.padded_BSgate 0%Q [1; 6; 36]
    [GateArgs.LoopArgs (replicate 20 (1#4)%Q) (replicate 20 (7#8)%Q);
     GateArgs.LoopArgs (replicate 20 (1#4)%Q) (replicate 20 (7#8)%Q);
     GateArgs.LoopArgs (replicate 20 (1#4)%Q) (replicate 20 (7#8)%Q)] 2
  = Some (replicate 79 0%Q).
Proof.
  apply (long_delay_all_idle 0%Q [1; 6; 36]
           [GateArgs.LoopArgs (replicate 20 (1#4)%Q) (replicate 20 (7#8)%Q);
            GateArgs.LoopArgs (replicate 20 (1#4)%Q) (replicate 20 (7#8)%Q);
            GateArgs.LoopArgs (replicate 20 (1#4)%Q) (replicate 20 (7#8)%Q)]
           2 36 _ eq_refl eq_refl).
  vm_compute. lia.
Defined.

(** Mode 10 of the second loop of the advanced tutorial. *)
Lemma loop_gates_aligned_witness :
  ∃ phi alpha bin,
    Sequences.padded_Rgate 0%Q [1; 6; 36]
      [GateArgs.LoopArgs (replicate 216 (1#4)%Q) (replicate 216 (7#8)%Q);
       GateArgs.LoopArgs (replicate 216 (1#3)%Q) (replicate 216 (5#8)%Q);
       GateArgs.LoopArgs (replicate 216 (1#2)%Q) (replicate 216 (3#8)%Q)] 1
    = Some phi ∧
    GateArgs.padded_BSgate 0%Q [1; 6; 36]
      [GateArgs.LoopArgs (replicate 216 (1#4)%Q) (replicate 216 (7#8)%Q);
       GateArgs.LoopArgs (replicate 216 (1#3)%Q) (replicate 216 (5#8)%Q);
       GateArgs.LoopArgs (replicate 216 (1#2)%Q) (replicate 216 (3#8)%Q)] 1
    = Some alpha ∧
    phi !! bin = Some (1#3)%Q ∧ alpha !! bin = Some (5#8)%Q ∧
    length phi = length alpha.
Proof.
  apply (loop_gates_aligned 0%Q [1; 6; 36]
           [GateArgs.LoopArgs (replicate 216 (1#4)%Q) (replicate 216 (7#8)%Q);
            GateArgs.LoopArgs (replicate 216 (1#3)%Q) (replicate 216 (5#8)%Q);
            GateArgs.LoopArgs (replicate 216 (1#2)%Q) (replicate 216 (3#8)%Q)]
           1 6 _ 10 eq_refl eq_refl).
  - vm_compute. reflexivity.
  - vm_compute. lia.
Defined.

(** The advanced tutorial with sixteen channel efficiencies. *)
Lemma add_channel_efficiencies_spec_witness :
  ∃ args etas,
    Realistic.add_channel_efficiencies
      (GateArgs.gate_args_list 0%Q 216 1%Q 1 6 36
         (replicate 216 (1#4)%Q) (replicate 216 (1#4)%Q)
         (replicate 216 (1#4)%Q) (replicate 216 (7#8)%Q)
         (replicate 216 (7#8)%Q) (replicate 216 (7#8)%Q))
      (replicate 16 (9#10)%Q)
    = Some args ∧
    length args = 8 ∧
    Forall (λ s, length s = 259) args ∧
    args !! 7 = Some etas ∧ etas !! 258 = Some (9#10)%Q.
Proof.
  destruct (proj2 (add_channel_efficiencies_spec 0%Q 216 1%Q 1 6 36
              (replicate 216 (1#4)%Q) (replicate 216 (1#4)%Q)
              (replicate 216 (1#4)%Q) (replicate 216 (7#8)%Q)
              (replicate 216 (7#8)%Q) (replicate 216 (7#8)%Q)
              (replicate 16 (9#10)%Q)))
    as (args & etas & Hargs & Heq & Hlen & Hall & Hat);
    try (vm_compute; reflexivity); try lia.
  exists args, etas. split; [exact Hargs|]. split; [exact Hlen|].
  split; [exact Hall|]. split.
  - rewrite Heq. reflexivity.
  - rewrite Hat by lia. reflexivity.
Defined.

(** The beamsplitter of the third loop of the simulated circuit. *)
Lemma circuit_registers_witness :
  Layout.registers_as_laid_out 3
    (Circuit.Cmd (Circuit.BSgate (Circuit.p 6) Circuit.pi_half)
       [Circuit.q_n 3; Circuit.q_n 2]) ∧
  ∀ r, r ∈ [Circuit.q_n 3; Circuit.q_n 2] ->
       r = Circuit.q 0 ∨ ∃ i, i <= 3 ∧ r = Circuit.q_n i.
Proof.
  apply (circuit_registers 3 (Circuit.prog_sim 3)
           (Circuit.Cmd (Circuit.BSgate (Circuit.p 6) Circuit.pi_half)
              [Circuit.q_n 3; Circuit.q_n 2])).
  - unfold Circuit.programs. do 3 apply list_elem_of_further.
    apply list_elem_of_here.
  - vm_compute. do 11 apply list_elem_of_further. apply list_elem_of_here.
Defined.

(** Two shots of 259 time bins, sliced at 43. *)
Lemma slice_from_spec_witness :
  Crop.has_shape 2 1 216 (Crop.slice_from 43 (replicate 2 [seq 0 259])) ∧
  Crop.sample_at (Crop.slice_from 43 (replicate 2 [seq 0 259])) 0 0 215
  = Some 258.
Proof.
  destruct (slice_from_spec 43 2 1 259 (replicate 2 [seq 0 259]))
    as (Hshape & Hat & _).
  - split; [reflexivity|]. repeat constructor.
  - split; [exact Hshape|]. rewrite Hat. reflexivity.
Defined.

(** A row of 259 entries and 43 vacuum modes. *)
Lemma vacuum_crops_agree_witness :
  Transfer.slice 43 259 (seq 0 259) = drop 43 (seq 0 259) ∧
  length (drop 43 (seq 0 259)) = 216 ∧
  length (Builtins.range 43 259) = 216.
Proof.
  destruct (vacuum_crops_agree 43 259 (seq 0 259)) as (Heq & Hlen & Hrange & _).
  - reflexivity.
  - split; [exact Heq|]. split; [exact Hlen|exact Hrange].
Defined.

(** A three by three matrix cropped from 1 to 5. *)
Lemma transfer_matrix_clamps_witness :
  Transfer.has_shape 2 2
    (Transfer.transfer_matrix 1 5 [[1; 2; 3]; [4; 5; 6]; [7; 8; 9]]) ∧
  Transfer.entry
    (Transfer.transfer_matrix 1 5 [[1; 2; 3]; [4; 5; 6]; [7; 8; 9]]) 1 0
  = Some 8.
Proof.
  destruct (transfer_matrix_clamps 1 5 3 3 [[1; 2; 3]; [4; 5; 6]; [7; 8; 9]])
    as [Hshape Hat].
  - split; [reflexivity|]. repeat constructor.
  - split; [exact Hshape|]. rewrite Hat by lia. reflexivity.
Defined.

(** A three by three array of integers, and a two by three one. *)
Lemma remove_diagonal_spec_witness :
  (∃ cov', Moments.remove_diagonal 0%Z Z.sub
             [[1; 2; 3]; [4; 5; 6]; [7; 8; 9]]%Z = Some cov' ∧
           Transfer.has_shape 3 3 cov' ∧
           Transfer.entry cov' 1 1 = Some 0%Z ∧
           Transfer.entry cov' 1 2 = Some 6%Z) ∧
  Moments.remove_diagonal 0%Z Z.sub
    [[1; 2; 3]; [4; 5; 6]; [7; 8; 9]; [10; 11; 12]]%Z = None.
Proof.
  split.
  - destruct (proj1 (remove_diagonal_spec 0%Z Z.sub
                      [[1; 2; 3]; [4; 5; 6]; [7; 8; 9]]%Z) 3)
      as (cov' & Hcov & Hshape & Hat).
    + split; [reflexivity|]. repeat constructor.
    + intros x. lia.
    + intros x. lia.
    + exists cov'. split; [exact Hcov|]. split; [exact Hshape|].
      split; [apply (Hat 1 1 5%Z)|apply (Hat 1 2 6%Z)]; reflexivity.
  - apply (proj2 (remove_diagonal_spec 0%Z Z.sub
                    [[1; 2; 3]; [4; 5; 6]; [7; 8; 9]; [10; 11; 12]]%Z) 4 3).
    + split; [reflexivity|]. repeat constructor.
    + lia.
    + lia.
    + lia.
Defined.
